(** * Text classification with pre-trained word embeddings

    A shallow embedding of the data-preparation cells of the notebook
    [using-pre-trained-word-embeddings-in-a-keras-model.ipynb]: the corpus
    loader, the tokenizer calls, the GloVe parser and the embedding-matrix
    builder, together with the properties stated for them. *)

From Stdlib Require Import ZArith Lia Orders Sorting.Mergesort.
From stdpp Require Import base list strings gmap sorting.

#[local] Set Warnings "-clear-no-such-hyp,-abstract-large-number".

(** ** Python exceptions raised by the modelled cells *)

Inductive exception :=
| IndexError                      (* index out of range *)
| ValueError (detail : string)    (* bad literal / shape mismatch *)
| IsADirectoryError.              (* open() on a directory *)

Global Instance exception_eq_dec : EqDecision exception.
Proof. solve_decision. Defined.

(** The notebook's constants (cell 2). *)
Definition MAX_SEQUENCE_LENGTH : nat := 1000.
Definition MAX_NUM_WORDS : nat := 20000.
Definition EMBEDDING_DIM : nat := 100.

(** ** Corpus loader (cell 4) *)

(** [sorted(...)] on a list of names: Python orders strings lexicographically
    by character code, which is [String.leb]. *)
Module StringOrder <: TotalLeBool.
Definition t := string.
Definition leb := String.leb.
Definition leb_total := String.leb_total.
End StringOrder.

Module StringSort := Sort StringOrder.

Definition sorted (names : list string) : list string := StringSort.sort names.

(** The part of the file system the loader looks at.  A regular file is the
    text [f.read()] returns for it (under latin-1 every byte is one
    character); a directory maps the names of its entries to the entries. *)
#[warnings="-register-all"]
Inductive node :=
| File (content : string)
| Dir (entries : gmap string node).

(** [os.listdir(path)]: the names, in no particular order. *)
Definition listdir (entries : gmap string node) : list string :=
  (map_to_list entries).*1.

(** [os.path.isdir(path)] for [path] the entry [name] of a directory. *)
Definition isdir (entries : gmap string node) (name : string) : bool :=
  match entries !! name with
  | Some (Dir _) => true
  | _ => false
  end.

(** [fname.isdigit()]: non-empty and made of decimal digits only (names are
    taken to be ASCII). *)
Definition is_digit_char (c : Ascii.ascii) : bool :=
  (48 <=? Ascii.nat_of_ascii c) && (Ascii.nat_of_ascii c <=? 57).

Fixpoint all_digits (s : string) : bool :=
  match s with
  | EmptyString => true
  | String c s' => is_digit_char c && all_digits s'
  end.

Definition isdigit (s : string) : bool :=
  match s with
  | EmptyString => false
  | _ => all_digits s
  end.

Definition newline : Ascii.ascii := Ascii.ascii_of_nat 10.
Definition double_newline : string := String newline (String newline EmptyString).

(** [t.find(sub)] : the lowest index at which [sub] occurs in [t], or -1. *)
Fixpoint find_from (sub t : string) (pos : nat) : Z :=
  if String.prefix sub t then Z.of_nat pos
  else match t with
       | EmptyString => (-1)%Z
       | String _ t' => find_from sub t' (S pos)
       end.

Definition find (t sub : string) : Z := find_from sub t 0.

Fixpoint drop_chars (n : nat) (t : string) : string :=
  match n, t with
  | O, _ => t
  | S _, EmptyString => EmptyString
  | S n', String _ t' => drop_chars n' t'
  end.

(** The slice [t[i:]], negative [i] counting from the end. *)
Definition slice_from (t : string) (i : Z) : string :=
  if (0 <=? i)%Z then drop_chars (Z.to_nat i) t
  else drop_chars (Z.to_nat (Z.of_nat (String.length t) + i)) t.

(** [i = t.find('\n\n'); if 0 < i: t = t[i:]] *)
Definition skip_header (t : string) : string :=
  let i := find t double_newline in
  if (0 <? i)%Z then slice_from t i else t.

(** [sub] occurs in [t] at offset [k]. *)
Definition occurs_at (sub t : string) (k : nat) : Prop :=
  ∃ pre post, t = pre +:+ sub +:+ post ∧ String.length pre = k.

(** [k] is the offset of the first occurrence of [sub] in [t]. *)
Definition first_occurrence (sub t : string) (k : nat) : Prop :=
  occurs_at sub t k ∧ ∀ j, j < k → ¬ occurs_at sub t j.

(** The three variables the cell fills. *)
Record corpus := Corpus {
  texts : list string;
  labels_index : gmap string nat;
  labels : list nat
}.

(** The inner loop [for fname in sorted(os.listdir(path)):], over the names
    still to visit.  The lists are appended to in place, so what was
    appended before an exception stays. *)
Fixpoint load_files (entries : gmap string node) (label_id : nat)
    (fnames : list string) (c : corpus) : corpus * option exception :=
  match fnames with
  | [] => (c, None)
  | fname :: rest =>
      if isdigit fname then
        match entries !! fname with
        | Some (File t) =>
            load_files entries label_id rest
              (Corpus (texts c ++ [skip_header t]) (labels_index c)
                      (labels c ++ [label_id]))
        | _ =>
            (* the name comes from listdir, so it is a directory:
               open(fpath) raises *)
            (c, Some IsADirectoryError)
        end
      else load_files entries label_id rest c
  end.

(** The outer loop [for name in sorted(os.listdir(TEXT_DATA_DIR)):]. *)
Fixpoint load_dirs (root : gmap string node) (names : list string) (c : corpus)
  : corpus * option exception :=
  match names with
  | [] => (c, None)
  | name :: rest =>
      match root !! name with
      | Some (Dir entries) =>
          let label_id := size (labels_index c) in
          let c1 := Corpus (texts c) (<[name := label_id]> (labels_index c))
                           (labels c) in
          match load_files entries label_id (sorted (listdir entries)) c1 with
          | (c2, None) => load_dirs root rest c2
          | (c2, Some e) => (c2, Some e)
          end
      | _ => load_dirs root rest c
      end
  end.

Definition load_corpus (root : gmap string node) : corpus * option exception :=
  load_dirs root (sorted (listdir root)) (Corpus [] ∅ []).

(** The immediate subdirectories in the order the outer loop meets them. *)
Definition subdirs (root : gmap string node) : list string :=
  filter (λ name, isdir root name) (sorted (listdir root)).

(** The corpus layout the loader is written for: inside a label directory,
    every entry with an all-digit name is a regular file. *)
Definition regular_samples (root : gmap string node) : Prop :=
  ∀ name entries fname, root !! name = Some (Dir entries) →
    isdigit fname → is_Some (entries !! fname) →
    ∃ t, entries !! fname = Some (File t).

(** The sample [t] was read from a digit-named file of directory [name]. *)
Definition sample_of (root : gmap string node) (name : string) (t : string) : Prop :=
  ∃ entries fname content,
    root !! name = Some (Dir entries) ∧
    entries !! fname = Some (File content) ∧
    isdigit fname ∧ t = skip_header content.

(** What holds of the three variables after the outer loop has gone through
    the directories [visited], in that order. *)
Definition loader_invariant (root : gmap string node) (visited : list string)
    (c : corpus) : Prop :=
  NoDup visited ∧
  (∀ name j, labels_index c !! name = Some j ↔ visited !! j = Some name) ∧
  size (labels_index c) = length visited ∧
  length (texts c) = length (labels c) ∧
  (∀ k t, texts c !! k = Some t →
     ∃ id name, labels c !! k = Some id ∧ visited !! id = Some name ∧
       sample_of root name t).

(** ** Tokenizer and sequence encoder (cell 5)

    The cell calls the Keras classes [Tokenizer] and [pad_sequences]; their
    code is not part of the notebook. *)

Section Tokenizer.
(** The tokenization rule (lower-casing, punctuation stripping, splitting)
    is left open: any function from a text to its words. *)
Context (text_to_word_sequence : string → list string).

(** The words of the whole corpus, in reading order. *)
Definition corpus_words (texts : list string) : list string :=
  concat (text_to_word_sequence <$> texts).

(** Modelled from the spec: the frequency count of Keras'
    [Tokenizer.fit_on_texts] ("counts word frequency across the whole
    corpus").  The counts are kept in first-seen order: a known word has
    its count incremented in place, a new word is appended with count 1. *)
Fixpoint count_word (w : string) (counts : list (string * nat))
  : list (string * nat) :=
  match counts with
  | [] => [(w, 1)]
  | (w', n) :: rest =>
      if decide (w = w') then (w', S n) :: rest
      else (w', n) :: count_word w rest
  end.

Definition word_counts (words : list string) : list (string * nat) :=
  foldl (λ counts w, count_word w counts) [] words.

(** Modelled from the spec: the ordering step of [fit_on_texts]
    ("descending frequency order, ties broken by first-seen order"): a
    stable sort of the counts by decreasing count. *)
Fixpoint insert_by_count (x : string * nat) (l : list (string * nat))
  : list (string * nat) :=
  match l with
  | [] => [x]
  | y :: rest =>
      if decide (x.2 < y.2) then y :: insert_by_count x rest
      else x :: y :: rest
  end.

Definition sort_by_count (counts : list (string * nat)) : list (string * nat) :=
  foldr insert_by_count [] counts.

(** Modelled from the spec: the mapping [Tokenizer.word_index] built by
    [fit_on_texts] ("assigns indices 1..distinct_words", "full,
    unbounded"): the sorted words paired with 1, 2, 3, ... *)
Definition build_word_index (words : list string) : list (string * nat) :=
  let sorted_voc := (sort_by_count (word_counts words)).*1 in
  zip sorted_voc (seq 1 (length sorted_voc)).

(** [Tokenizer(num_words=MAX_NUM_WORDS)] and the field the notebook reads. *)
Record Tokenizer := MkTokenizer {
  tk_num_words : nat;
  tk_word_index : list (string * nat)
}.

(** Modelled from the spec: [tokenizer.fit_on_texts(texts)]; [num_words]
    plays no part in it. *)
Definition fit_on_texts (t : Tokenizer) (texts : list string) : Tokenizer :=
  MkTokenizer (tk_num_words t) (build_word_index (corpus_words texts)).

(** [word_index.get(w)] on the dict given by its items. *)
Fixpoint get (word_index : list (string * nat)) (w : string) : option nat :=
  match word_index with
  | [] => None
  | (w', i) :: rest => if decide (w = w') then Some i else get rest w
  end.

(** Modelled from the spec: one text of [tokenizer.texts_to_sequences]
    ("map each token to its vocabulary index; drop tokens whose index is
    >= N or absent from the vocabulary"). *)
Definition text_to_sequence (t : Tokenizer) (text : string) : list nat :=
  omap (λ w, match get (tk_word_index t) w with
             | Some i => if decide (tk_num_words t ≤ i) then None else Some i
             | None => None
             end)
       (text_to_word_sequence text).

(** Modelled from the spec: one row of Keras' [pad_sequences(sequences,
    maxlen=L)] under its default policy ("if the resulting sequence has
    fewer than L elements, left-pad with 0; if more than L, truncate by
    keeping the last L elements"). *)
Definition pad_sequence (maxlen : nat) (s : list nat) : list nat :=
  if decide (length s < maxlen) then replicate (maxlen - length s) 0 ++ s
  else if decide (maxlen < length s) then drop (length s - maxlen) s
  else s.

(** The sequence encoder: one row of [data]. *)
Definition encode (t : Tokenizer) (maxlen : nat) (text : string) : list nat :=
  pad_sequence maxlen (text_to_sequence t text).

(** [sequences = tokenizer.texts_to_sequences(texts)] and
    [data = pad_sequences(sequences, maxlen=MAX_SEQUENCE_LENGTH)]. *)
Definition texts_to_sequences (t : Tokenizer) (texts : list string)
  : list (list nat) :=
  text_to_sequence t <$> texts.

Definition pad_sequences (maxlen : nat) (sequences : list (list nat))
  : list (list nat) :=
  pad_sequence maxlen <$> sequences.

Definition data (t : Tokenizer) (texts : list string) : list (list nat) :=
  pad_sequences MAX_SEQUENCE_LENGTH (texts_to_sequences t texts).

(** Number of occurrences of a word, and the position of its first one. *)
Definition frequency (w : string) (words : list string) : nat :=
  length (filter (λ w', w' = w) words).

Fixpoint first_seen (w : string) (words : list string) : nat :=
  match words with
  | [] => 0
  | w' :: rest => if decide (w = w') then 0 else S (first_seen w rest)
  end.

(** [a] was first seen before [b]; and the order of the vocabulary: by
    decreasing frequency, then by first appearance. *)
Definition seen_before (words : list string) (a b : string) : Prop :=
  first_seen a words < first_seen b words.

Definition ranks_before (words : list string) (a b : string * nat) : Prop :=
  b.2 < a.2 ∨ (a.2 = b.2 ∧ seen_before words a.1 b.1).
End Tokenizer.

(** ** Pre-trained embedding index (cell 7) *)

(** [c.isspace()], for the ASCII characters (lines are taken to be ASCII). *)
Definition is_space (c : Ascii.ascii) : bool :=
  let n := Ascii.nat_of_ascii c in
  ((9 <=? n) && (n <=? 13)) || ((28 <=? n) && (n <=? 32)).

(** [line.split()]: the maximal runs of non-space characters.  [word] holds
    the characters of the run being read. *)
Fixpoint split_from (line word : string) : list string :=
  match line with
  | EmptyString => match word with EmptyString => [] | _ => [word] end
  | String c rest =>
      if is_space c then
        match word with
        | EmptyString => split_from rest EmptyString
        | _ => word :: split_from rest EmptyString
        end
      else split_from rest (word +:+ String c EmptyString)
  end.

Definition split (line : string) : list string := split_from line EmptyString.

Section EmbeddingsIndex.
(** The coefficients and numpy's conversion of a token to a float32:
    [None] when the token is not a float literal. *)
Context {coef : Type} (float32 : string → option coef).

(** [np.asarray(tokens, dtype='float32')]: the converted tokens, or the
    ValueError for the first token that cannot be converted. *)
Fixpoint asarray (tokens : list string) : exception + list coef :=
  match tokens with
  | [] => inr []
  | tok :: rest =>
      match float32 tok with
      | None => inl (ValueError tok)
      | Some c =>
          match asarray rest with
          | inl e => inl e
          | inr coefs => inr (c :: coefs)
          end
      end
  end.

(** The body of [for line in f:], up to the store. *)
Definition parse_line (line : string) : exception + (string * list coef) :=
  match split line with
  | [] => inl IndexError                           (* values[0] *)
  | word :: rest =>
      match asarray rest with
      | inl e => inl e
      | inr coefs => inr (word, coefs)
      end
  end.

(** The loop over the lines still to read; the dict is updated in place,
    so the entries stored before an exception stay. *)
Fixpoint parse_lines (lines : list string)
    (embeddings_index : gmap string (list coef))
  : gmap string (list coef) * option exception :=
  match lines with
  | [] => (embeddings_index, None)
  | line :: rest =>
      match parse_line line with
      | inl e => (embeddings_index, Some e)
      | inr (word, coefs) =>
          parse_lines rest (<[word := coefs]> embeddings_index)
      end
  end.

(** The whole cell: [embeddings_index = {}] and the loop. *)
Definition build_embeddings_index (lines : list string)
  : gmap string (list coef) * option exception :=
  parse_lines lines ∅.
End EmbeddingsIndex.

(** ** Embedding matrix builder (cell 9) *)

Section EmbeddingMatrix.
Context {coef : Type} (zero : coef).

(** A numpy 2-D array, as the list of its rows. *)
Definition matrix := list (list coef).

(** [np.zeros((rows, cols))] *)
Definition zeros (rows cols : nat) : list (list coef) :=
  replicate rows (replicate cols zero).

(** [embedding_matrix[i] = embedding_vector]: numpy raises IndexError when
    [i] is not a row, and otherwise copies the vector into the row,
    broadcasting a one-element vector and raising ValueError for any other
    length mismatch. *)
Definition set_row (m : list (list coef)) (i : nat) (v : list coef)
  : exception + list (list coef) :=
  match m !! i with
  | None => inl IndexError
  | Some row =>
      if decide (length v = length row) then inr (<[i := v]> m)
      else match v with
           | [c] => inr (<[i := replicate (length row) c]> m)
           | _ => inl (ValueError "could not broadcast input array")
           end
  end.

(** [num_words = min(MAX_NUM_WORDS, len(word_index) + 1)] *)
Definition num_words (N : nat) (word_index : list (string * nat)) : nat :=
  N `min` (length word_index + 1).

(** One iteration of [for word, i in word_index.items():] up to the
    assignment: the two guards decide whether a row is written, and which
    vector goes into which row. *)
Definition guarded_write (N : nat) (embeddings_index : gmap string (list coef))
    (item : string * nat) : option (nat * list coef) :=
  let '(word, i) := item in
  if decide (N ≤ i) then None                                  (* continue *)
  else match embeddings_index !! word with
       | Some embedding_vector => Some (i, embedding_vector)
       | None => None
       end.

(** The loop itself.  The dict is the list of its items in iteration
    order.  The array is updated in place, so when an assignment raises,
    the rows written so far stay written: the result is the array together
    with the exception, if any. *)
Fixpoint fill (N : nat) (embeddings_index : gmap string (list coef))
    (items : list (string * nat)) (m : list (list coef))
  : list (list coef) * option exception :=
  match items with
  | [] => (m, None)
  | item :: rest =>
      match guarded_write N embeddings_index item with
      | None => fill N embeddings_index rest m
      | Some (i, embedding_vector) =>
          match set_row m i embedding_vector with
          | inr m' => fill N embeddings_index rest m'
          | inl e => (m, Some e)
          end
      end
  end.

(** The whole cell, as a function of the three values it reads. *)
Definition embedding_matrix (N D : nat) (word_index : list (string * nat))
    (embeddings_index : gmap string (list coef))
  : list (list coef) * option exception :=
  fill N embeddings_index word_index (zeros (num_words N word_index) D).

(** The cell on the heap.  The two dicts and the arrays are mutable objects
    that the notebook's names refer to by address; the values of
    [embeddings_index] are themselves addresses of one-dimensional arrays. *)
Inductive object :=
| WordIndex (items : list (string * nat))      (* the dict [word_index] *)
| EmbeddingsIndex (d : gmap string nat)        (* the dict [embeddings_index] *)
| Vector (v : list coef)                       (* a 1-D ndarray *)
| Matrix (m : list (list coef)).               (* a 2-D ndarray *)

(** The names the cell reads or binds: [num_words] holds an int, the others
    the address of an object. *)
Record names := Names {
  n_word_index : nat;
  n_embeddings_index : nat;
  n_num_words : option nat;
  n_embedding_matrix : option nat
}.

(** The loop, writing into the array at [m_addr].  [embeddings_index.get]
    and the row assignment go through the heap at every iteration; the
    assignment copies the elements of the vector into the row.  [None] stands
    for a heap in which a name or a dict value does not lead to an object of
    its kind, which no run of the notebook produces. *)
Fixpoint fill_in_place (N : nat) (e_addr m_addr : nat)
    (items : list (string * nat)) (h : gmap nat object)
  : option (gmap nat object * option exception) :=
  match items with
  | [] => Some (h, None)
  | (word, i) :: rest =>
      if decide (N ≤ i) then fill_in_place N e_addr m_addr rest h   (* continue *)
      else
        match h !! e_addr with
        | Some (EmbeddingsIndex d) =>
            match d !! word with
            | None => fill_in_place N e_addr m_addr rest h
            | Some v_addr =>
                match h !! v_addr, h !! m_addr with
                | Some (Vector embedding_vector), Some (Matrix m) =>
                    match set_row m i embedding_vector with
                    | inr m' =>
                        fill_in_place N e_addr m_addr rest
                          (<[m_addr := Matrix m']> h)
                    | inl e => Some (h, Some e)
                    end
                | _, _ => None
                end
            end
        | _ => None
        end
  end.

(** Running the cell: [num_words] is bound, [np.zeros] allocates a new
    array at an address not in use, [embedding_matrix] is bound to it, and
    the loop fills it. *)
Definition run_cell (N D : nat) (ns : names) (h : gmap nat object)
  : option (names * gmap nat object * option exception) :=
  match h !! n_word_index ns with
  | Some (WordIndex items) =>
      let nw := num_words N items in
      let m_addr := fresh (dom h) in
      match fill_in_place N (n_embeddings_index ns) m_addr items
              (<[m_addr := Matrix (zeros nw D)]> h) with
      | Some (h', e) =>
          Some (Names (n_word_index ns) (n_embeddings_index ns)
                      (Some nw) (Some m_addr), h', e)
      | None => None
      end
  | _ => None
  end.

(** The embedding index a heap holds: each word with the elements of the
    array its dict value points to. *)
Definition contents (h : gmap nat object) (d : gmap string nat)
  : gmap string (list coef) :=
  omap (λ a, match h !! a with
             | Some (Vector v) => Some v
             | _ => None
             end) d.

(** The heap before the cell runs: the two names lead to the two dicts and
    every value of [embeddings_index] to a one-dimensional array. *)
Definition cell_inputs (h : gmap nat object) (ns : names)
    (items : list (string * nat)) (d : gmap string nat) : Prop :=
  h !! n_word_index ns = Some (WordIndex items) ∧
  h !! n_embeddings_index ns = Some (EmbeddingsIndex d) ∧
  ∀ word a, d !! word = Some a → ∃ v, h !! a = Some (Vector v).

(** The vocabulary invariant of the tokenizer's [word_index]: keys are
    distinct (it is a dict) and the indices are exactly 1..len. *)
Definition dense_vocab (word_index : list (string * nat)) : Prop :=
  NoDup word_index.*1 ∧ word_index.*2 ≡ₚ seq 1 (length word_index).

(** Every vector of the embedding index has dimension [D]. *)
Definition dimension (D : nat) (embeddings_index : gmap string (list coef)) : Prop :=
  map_Forall (λ _ v, length v = D) embeddings_index.
End EmbeddingMatrix.

(** ** Training and validation split (cell 5, after the encoding) *)

(** [a[indices]] for an integer array [indices] without negative entries:
    row [k] of the result is row [indices[k]] of [a]; numpy raises
    IndexError when an index is not a row. *)
Definition take_rows {A} (a : list A) (indices : list nat) : exception + list A :=
  match mapM (λ i, a !! i) indices with
  | Some rows => inr rows
  | None => inl IndexError
  end.

(** The slices [a[:stop]] and [a[start:]], a negative bound counting from the
    end and every bound clipped to the array. *)
Definition slice_until {A} (a : list A) (stop : Z) : list A :=
  if (0 <=? stop)%Z then take (Z.to_nat stop) a
  else take (Z.to_nat (Z.of_nat (length a) + stop)) a.

Definition slice_since {A} (a : list A) (start : Z) : list A :=
  if (0 <=? start)%Z then drop (Z.to_nat start) a
  else drop (Z.to_nat (Z.of_nat (length a) + start)) a.

(** The four arrays the cell binds. *)
Record partition (A B : Type) := Partition {
  x_train : list A;
  y_train : list B;
  x_val : list A;
  y_val : list B
}.
Arguments Partition {A B}.
Arguments x_train {A B}.
Arguments y_train {A B}.
Arguments x_val {A B}.
Arguments y_val {A B}.

(** [data = data[indices]; labels = labels[indices]] and the four slices.
    [indices] is the array after [np.random.shuffle], and
    [num_validation_samples] the value of
    [int(VALIDATION_SPLIT * data.shape[0])], a floating-point product that is
    taken as given. *)
Definition train_val_split {A B} (indices : list nat)
    (num_validation_samples : nat) (data : list A) (labels : list B)
  : exception + partition A B :=
  match take_rows data indices with
  | inl e => inl e
  | inr data' =>
      match take_rows labels indices with
      | inl e => inl e
      | inr labels' =>
          let stop := (- Z.of_nat num_validation_samples)%Z in
          inr (Partition (slice_until data' stop) (slice_until labels' stop)
                         (slice_since data' stop) (slice_since labels' stop))
      end
  end.

(** ** Statements about the loader, the parser and [split] *)

(** The samples the inner loop appends for the names [fnames] of a
    directory, when every digit-named entry is a regular file. *)
Definition samples (entries : gmap string node) (fnames : list string)
  : list string :=
  omap (λ fname,
          if isdigit fname then
            match entries !! fname with
            | Some (File t) => Some (skip_header t)
            | _ => None
            end
          else None)
       fnames.

Definition dir_samples (entries : gmap string node) : list string :=
  samples entries (sorted (listdir entries)).

(** The directories among the names [names] of [root], in that order. *)
Definition dirs_of (root : gmap string node) (names : list string)
  : list (gmap string node) :=
  omap (λ name, match root !! name with
                | Some (Dir entries) => Some entries
                | _ => None
                end)
       names.

(** A line made of white space only, and a token without white space. *)
Fixpoint all_space (s : string) : bool :=
  match s with
  | EmptyString => true
  | String c rest => is_space c && all_space rest
  end.

Fixpoint no_space (s : string) : bool :=
  match s with
  | EmptyString => true
  | String c rest => negb (is_space c) && no_space rest
  end.

(** [' '.join(tokens)] *)
Fixpoint join (tokens : list string) : string :=
  match tokens with
  | [] => EmptyString
  | [tok] => tok
  | tok :: rest => tok +:+ String (Ascii.ascii_of_nat 32) (join rest)
  end.

(** ** Sample data used to exercise the statements below *)

Definition sample_word_index : list (string * nat) :=
  [("the", 1); ("cat", 2); ("sat", 3)].

Definition sample_embeddings_index : gmap string (list Z) :=
  <["the" := [1; 2]%Z]> (<["sat" := [3; 4]%Z]> ∅).

Definition sample_heap : gmap nat (@object Z) :=
  <[0 := WordIndex sample_word_index]>
  (<[1 := EmbeddingsIndex (<["the" := 2]> (<["sat" := 3]> ∅))]>
  (<[2 := Vector [1; 2]%Z]>
  (<[3 := Vector [3; 4]%Z]> ∅))).

Definition sample_names : names := Names 0 1 None None.

(** A conversion used on the sample files below: unsigned decimal integers,
    on which it agrees with float32 conversion; everything else is rejected. *)
Fixpoint digits_value (s : string) (acc : Z) : Z :=
  match s with
  | EmptyString => acc
  | String c rest =>
      digits_value rest (10 * acc + Z.of_nat (Ascii.nat_of_ascii c - 48))%Z
  end.

Definition integer_literal (s : string) : option Z :=
  if isdigit s then Some (digits_value s 0%Z) else None.

Definition sample_glove_lines : list string :=
  ["the 1 2" +:+ String newline EmptyString;
   "sat 3" +:+ String newline EmptyString].

Definition sample_bad_glove_lines : list string :=
  ["the 1 2" +:+ String newline EmptyString;
   "cat 5 x7" +:+ String newline EmptyString;
   "sat 3 4" +:+ String newline EmptyString].

Definition sample_texts : list string :=
  ["the cat sat"; "the cat"; "on the mat"].

Definition sample_root : gmap string node :=
  <["sci.space" := Dir (<["100" := File ("From: a" +:+ double_newline +:+ "Orbit")]>
                        (<["README" := File "not a sample"]> ∅))]>
  (<["alt.atheism" := Dir (<["7" := File "no header"]> ∅)]>
  (<["notes.txt" := File "stray file"]> ∅)).

Definition sample_tokenizer : Tokenizer :=
  fit_on_texts split (MkTokenizer 4 []) sample_texts.

Definition single_label_root : gmap string node :=
  {["talk.misc" := Dir (<["12" := File "hello"]> ∅)]}.

Definition sparse_word_index : list (string * nat) := [("the", 5)].

Definition repeated_glove_lines : list string :=
  ["the 1 2" +:+ String newline EmptyString;
   "the 3 4" +:+ String newline EmptyString].

Definition regular_glove_lines : list string :=
  ["the 1 2" +:+ String newline EmptyString;
   "sat 3 4" +:+ String newline EmptyString].

(** * Properties *)

(** ** Header stripping *)

Lemma string_prefix_app sub t :
  String.prefix sub t = true ↔ ∃ post, t = sub +:+ post.
Proof.
  revert t. induction sub as [|c sub IH]; intros t; simpl.
  - split; [intros _; exists t; reflexivity|intros _; by destruct t].
  - destruct t as [|c' t]; simpl; [split; [done|intros [? ?]; discriminate]|].
    destruct (Ascii.ascii_dec c c') as [->|Hne].
    + rewrite IH. split; intros [post H]; exists post.
      * rewrite H. reflexivity.
      * change (String c' t = String c' (sub +:+ post)) in H. congruence.
    + split; [done|]. intros [post H].
      change (String c' t = String c (sub +:+ post)) in H. congruence.
Qed.

Lemma append_String c (a b : string) : String c a +:+ b = String c (a +:+ b).
Proof. reflexivity. Qed.

Lemma occurs_at_0 sub t : occurs_at sub t 0 ↔ String.prefix sub t = true.
Proof.
  rewrite string_prefix_app. split.
  - intros ([|??] & post & -> & Hlen); [by exists post|done].
  - intros [post ->]. by exists EmptyString, post.
Qed.

Lemma occurs_at_S sub c t k : occurs_at sub (String c t) (S k) ↔ occurs_at sub t k.
Proof.
  split.
  - intros ([|c' pre] & post & Ht & Hlen); [done|].
    rewrite append_String in Ht. injection Ht as -> ->. injection Hlen as Hlen.
    by exists pre, post.
  - intros (pre & post & -> & Hlen). exists (String c pre), post.
    split; [reflexivity|]. simpl. congruence.
Qed.

Lemma occurs_at_empty sub k : occurs_at sub EmptyString (S k) → False.
Proof.
  intros ([|??] & post & Ht & Hlen); [done|].
  rewrite append_String in Ht. discriminate.
Qed.

Lemma find_from_spec sub t pos :
  (find_from sub t pos = (-1)%Z ∧ ∀ k, ¬ occurs_at sub t k) ∨
  (∃ k, find_from sub t pos = Z.of_nat (pos + k) ∧ first_occurrence sub t k).
Proof.
  revert pos. induction t as [|c t IH]; intros pos; cbn [find_from].
  - destruct (String.prefix sub EmptyString) eqn:Hp.
    + right. exists 0. rewrite Nat.add_0_r. split; [done|].
      split; [by apply occurs_at_0|]. intros j Hj. lia.
    + left. split; [done|]. intros [|k] Hk.
      * apply occurs_at_0 in Hk. congruence.
      * by apply occurs_at_empty in Hk.
  - destruct (String.prefix sub (String c t)) eqn:Hp.
    + right. exists 0. rewrite Nat.add_0_r. split; [done|].
      split; [by apply occurs_at_0|]. intros j Hj. lia.
    + destruct (IH (S pos)) as [[Hf Hno]|(k & Hf & Hocc & Hfirst)].
      * left. split; [done|]. intros [|k] Hk.
        -- apply occurs_at_0 in Hk. congruence.
        -- apply occurs_at_S in Hk. by apply (Hno k).
      * right. exists (S k). split; [rewrite Hf; f_equal; lia|].
        split; [by apply occurs_at_S|]. intros [|j] Hj Hocc'.
        -- apply occurs_at_0 in Hocc'. congruence.
        -- apply occurs_at_S in Hocc'. apply (Hfirst j); [lia|done].
Qed.

Lemma first_occurrence_unique sub t k k' :
  first_occurrence sub t k → first_occurrence sub t k' → k = k'.
Proof.
  intros [Hk Hfk] [Hk' Hfk'].
  destruct (Nat.lt_trichotomy k k') as [?|[?|?]]; [|done|].
  - by destruct (Hfk' k).
  - by destruct (Hfk k').
Qed.

Lemma drop_chars_app pre s : drop_chars (String.length pre) (pre +:+ s) = s.
Proof.
  induction pre as [|c pre IH]; [by destruct s|].
  rewrite append_String. exact IH.
Qed.

(** C5.  The loader looks for the first double newline.  Found at a positive
    offset, everything before that offset is discarded and the text then
    starts with the double newline; not found, the text is kept unchanged.
    For "Header line\n\nBody text" the result is exactly "\n\nBody text". *)
Theorem skip_header_first_double_newline t :
  (∀ k, first_occurrence double_newline t k → 0 < k →
     skip_header t = drop_chars k t ∧
     ∃ header body, t = header +:+ double_newline +:+ body ∧
       String.length header = k ∧ skip_header t = double_newline +:+ body) ∧
  ((∀ k, ¬ occurs_at double_newline t k) → skip_header t = t) ∧
  skip_header ("Header line" +:+ double_newline +:+ "Body text")
    = double_newline +:+ "Body text".
Proof.
  split; [|split].
  - intros k Hfirst Hpos. unfold skip_header, find.
    destruct (find_from_spec double_newline t 0) as [[_ Hno]|(k' & -> & Hk')].
    { destruct Hfirst as [Hocc _]. by destruct (Hno k). }
    rewrite (first_occurrence_unique _ _ _ _ Hk' Hfirst). simpl.
    destruct (Z.ltb_spec 0 (Z.of_nat k)) as [_|?]; [|lia].
    unfold slice_from. destruct (Z.leb_spec 0 (Z.of_nat k)) as [_|?]; [|lia].
    rewrite Nat2Z.id. split; [done|].
    destruct Hfirst as [(header & body & -> & Hlen) _].
    exists header, body. split; [done|]. split; [done|].
    rewrite <- Hlen. apply drop_chars_app.
  - intros Hno. unfold skip_header, find.
    destruct (find_from_spec double_newline t 0) as [[-> _]|(k' & _ & Hocc & _)]; [done|].
    by destruct (Hno k').
  - vm_compute. reflexivity.
Qed.

Lemma skip_header_first_double_newline_witness :
  first_occurrence double_newline ("ab" +:+ double_newline +:+ "cd") 2 ∧ 0 < 2 ∧
  skip_header ("ab" +:+ double_newline +:+ "cd")
    = drop_chars 2 ("ab" +:+ double_newline +:+ "cd").
Proof.
  assert (first_occurrence double_newline ("ab" +:+ double_newline +:+ "cd") 2) as H.
  { split; [by exists "ab", "cd"|].
    intros j Hj Hocc. destruct j as [|[|j]]; [| |lia].
    - apply occurs_at_0 in Hocc. vm_compute in Hocc. discriminate.
    - apply occurs_at_S, occurs_at_0 in Hocc. vm_compute in Hocc. discriminate. }
  split; [exact H|]. split; [lia|].
  apply (skip_header_first_double_newline ("ab" +:+ double_newline +:+ "cd")); [exact H|lia].
Defined.

(** ** Corpus loader *)

Lemma ascii_compare_N a b :
  Ascii.compare a b = N.compare (Ascii.N_of_ascii a) (Ascii.N_of_ascii b).
Proof. reflexivity. Qed.

Lemma ascii_compare_Eq a b : Ascii.compare a b = Eq ↔ a = b.
Proof.
  split; [apply Ascii.compare_eq_iff|]. intros ->.
  rewrite ascii_compare_N. apply N.compare_refl.
Qed.

Lemma ascii_compare_Lt_trans a b c :
  Ascii.compare a b = Lt → Ascii.compare b c = Lt → Ascii.compare a c = Lt.
Proof. rewrite !ascii_compare_N, !N.compare_lt_iff. lia. Qed.

Lemma string_compare_refl s : String.compare s s = Eq.
Proof.
  induction s as [|c s IH]; [done|]. simpl.
  by rewrite (proj2 (ascii_compare_Eq c c) eq_refl).
Qed.

Lemma string_compare_Lt_trans s1 s2 s3 :
  String.compare s1 s2 = Lt → String.compare s2 s3 = Lt → String.compare s1 s3 = Lt.
Proof.
  revert s2 s3. induction s1 as [|c1 s1 IH]; intros [|c2 s2] [|c3 s3]; simpl; try done.
  destruct (Ascii.compare c1 c2) eqn:H12; try done;
    destruct (Ascii.compare c2 c3) eqn:H23; try done.
  - apply ascii_compare_Eq in H12 as ->, H23 as ->.
    rewrite (proj2 (ascii_compare_Eq c3 c3) eq_refl). apply IH.
  - apply ascii_compare_Eq in H12 as ->. by rewrite H23.
  - apply ascii_compare_Eq in H23 as ->. by rewrite H12.
  - by rewrite (ascii_compare_Lt_trans _ _ _ H12 H23).
Qed.

Lemma string_leb_refl s : String.leb s s = true.
Proof. unfold String.leb. by rewrite string_compare_refl. Qed.

Lemma string_leb_Lt_or_eq s1 s2 :
  String.leb s1 s2 = true ↔ String.compare s1 s2 = Lt ∨ s1 = s2.
Proof.
  unfold String.leb. destruct (String.compare s1 s2) eqn:Hc.
  - apply String.compare_eq_iff in Hc. naive_solver.
  - naive_solver.
  - split; [done|]. intros [?|Heq]; [done|]. subst s2.
    by rewrite string_compare_refl in Hc.
Qed.

Global Instance string_leb_trans : Transitive (λ x y : string, is_true (String.leb x y)).
Proof.
  intros s1 s2 s3. unfold is_true. rewrite !string_leb_Lt_or_eq.
  intros [H12|H12] [H23|H23]; subst; eauto using string_compare_Lt_trans.
Qed.

Lemma sorted_perm names : sorted names ≡ₚ names.
Proof. symmetry. apply StringSort.Permuted_sort. Qed.

Lemma sorted_strongly names :
  StronglySorted (λ x y : string, is_true (String.leb x y)) (sorted names).
Proof. apply StringSort.StronglySorted_sort, string_leb_trans. Qed.

Lemma elem_of_listdir (entries : gmap string node) name :
  name ∈ listdir entries ↔ is_Some (entries !! name).
Proof.
  unfold listdir. rewrite list_elem_of_fmap. split.
  - intros ([n x] & -> & Hin). apply elem_of_map_to_list in Hin. by exists x.
  - intros [x Hx]. exists (name, x). split; [done|]. by apply elem_of_map_to_list.
Qed.

Lemma sorted_listdir_NoDup (entries : gmap string node) :
  NoDup (sorted (listdir entries)).
Proof. rewrite sorted_perm. apply NoDup_fst_map_to_list. Qed.

(** The subdirectories are met in lexicographic order, each exactly once. *)
Lemma subdirs_spec (root : gmap string node) :
  NoDup (subdirs root) ∧
  StronglySorted (λ x y : string, is_true (String.leb x y)) (subdirs root) ∧
  ∀ name, name ∈ subdirs root ↔ isdir root name.
Proof.
  unfold subdirs. split; [|split].
  - apply NoDup_filter, sorted_listdir_NoDup.
  - generalize (sorted_strongly (listdir root)).
    induction 1 as [|x l Hl IH Hx]; [constructor|].
    rewrite filter_cons. case_decide; [|done].
    constructor; [done|]. apply Forall_forall. intros y Hy.
    apply list_elem_of_filter in Hy as [_ Hy]. by eapply Forall_forall in Hx.
  - intros name. rewrite list_elem_of_filter, sorted_perm, elem_of_listdir.
    split; [by intros [? _]|]. intros Hd. split; [done|].
    unfold isdir in Hd. destruct (root !! name); [by eexists|done].
Qed.

(** The inner loop appends one text and one copy of the label id per
    digit-named regular file, and touches nothing else. *)
Lemma load_files_spec entries label_id fnames c :
  ∃ ts, texts (load_files entries label_id fnames c).1 = texts c ++ ts ∧
    labels (load_files entries label_id fnames c).1
      = labels c ++ replicate (length ts) label_id ∧
    labels_index (load_files entries label_id fnames c).1 = labels_index c ∧
    (∀ t, t ∈ ts → ∃ fname content,
       entries !! fname = Some (File content) ∧ isdigit fname ∧ t = skip_header content) ∧
    ((∀ fname, fname ∈ fnames → isdigit fname →
        ∃ t, entries !! fname = Some (File t)) →
     (load_files entries label_id fnames c).2 = None).
Proof.
  revert c. induction fnames as [|fname rest IH]; intros c; cbn [load_files].
  { exists []. simpl. rewrite !app_nil_r. split_and!; try done.
    intros t Ht. by apply elem_of_nil in Ht. }
  destruct (isdigit fname) eqn:Hdig.
  - destruct (entries !! fname) as [[content|sub]|] eqn:Hent.
    + destruct (IH (Corpus (texts c ++ [skip_header content]) (labels_index c)
                           (labels c ++ [label_id])))
        as (ts & Ht & Hl & Hi & Hsrc & Hok).
      exists (skip_header content :: ts). simpl in *.
      rewrite Ht, Hl, Hi, <- !app_assoc. split_and!; try done.
      * intros t [->|Hin]%elem_of_cons; [|by apply Hsrc].
        exists fname, content. by rewrite Hdig.
      * intros Hall. apply Hok. intros f Hf. apply Hall. by right.
    + exists []. simpl. rewrite !app_nil_r. split_and!; try done.
      * intros t Ht. by apply elem_of_nil in Ht.
      * intros Hall. destruct (Hall fname) as [t Ht]; [by left|by rewrite Hdig|].
        congruence.
    + exists []. simpl. rewrite !app_nil_r. split_and!; try done.
      * intros t Ht. by apply elem_of_nil in Ht.
      * intros Hall. destruct (Hall fname) as [t Ht]; [by left|by rewrite Hdig|].
        congruence.
  - destruct (IH c) as (ts & Ht & Hl & Hi & Hsrc & Hok).
    exists ts. split_and!; try done.
    intros Hall. apply Hok. intros f Hf. apply Hall. by right.
Qed.

Lemma loader_invariant_enter root visited c name entries c2 ts :
  loader_invariant root visited c →
  name ∉ visited → root !! name = Some (Dir entries) →
  texts c2 = texts c ++ ts →
  labels c2 = labels c ++ replicate (length ts) (size (labels_index c)) →
  labels_index c2 = <[name := size (labels_index c)]> (labels_index c) →
  (∀ t, t ∈ ts → ∃ fname content,
     entries !! fname = Some (File content) ∧ isdigit fname ∧ t = skip_header content) →
  loader_invariant root (visited ++ [name]) c2.
Proof.
  intros (Hnd & Hidx & Hsize & Hlen & Hsrc) Hfresh Hroot Ht Hl Hi Hts.
  assert (labels_index c !! name = None) as Hnone.
  { destruct (labels_index c !! name) as [j|] eqn:Hj; [|done].
    apply Hidx in Hj. destruct Hfresh. by eapply list_elem_of_lookup_2. }
  split_and!.
  - apply NoDup_app. split_and!; [done| |apply NoDup_singleton].
    intros x Hx ->%list_elem_of_singleton. done.
  - intros name' j. rewrite Hi, Hsize.
    destruct (decide (name' = name)) as [->|Hne].
    + rewrite lookup_insert_eq. split.
      * intros [= <-]. by rewrite lookup_app_r, Nat.sub_diag.
      * intros Hj. destruct (decide (j < length visited)) as [Hlt|Hge].
        -- rewrite lookup_app_l in Hj by done. destruct Hfresh.
           by eapply list_elem_of_lookup_2.
        -- apply lookup_lt_Some in Hj as Hb. rewrite length_app in Hb. simpl in Hb.
           f_equal. lia.
    + rewrite lookup_insert_ne by done. rewrite Hidx. split.
      * intros Hj. by apply lookup_app_l_Some.
      * intros Hj. destruct (decide (j < length visited)) as [Hlt|Hge].
        -- by rewrite lookup_app_l in Hj.
        -- rewrite lookup_app_r in Hj by lia.
           destruct (j - length visited) as [|?]; simpl in Hj; by simplify_eq.
  - rewrite Hi, map_size_insert_None by done. rewrite length_app. simpl. lia.
  - rewrite Ht, Hl, !length_app, length_replicate. lia.
  - intros k t. rewrite Ht, Hl. intros Hk.
    destruct (decide (k < length (texts c))) as [Hlt|Hge].
    + rewrite lookup_app_l in Hk by done.
      destruct (Hsrc k t Hk) as (id & nm & Hlab & Hvis & Hsample).
      exists id, nm. split_and!; [|by apply lookup_app_l_Some|done].
      by apply lookup_app_l_Some.
    + rewrite lookup_app_r in Hk by lia.
      exists (length visited), name. split_and!.
      * rewrite lookup_app_r by lia. rewrite Hsize.
        apply lookup_replicate_2. apply lookup_lt_Some in Hk. lia.
      * by rewrite lookup_app_r, Nat.sub_diag.
      * destruct (Hts t) as (fname & content & ? & ? & ?);
          [by eapply list_elem_of_lookup_2|].
        by exists entries, fname, content.
Qed.

(** The outer loop, started in a state that satisfies the invariant. *)
Lemma load_dirs_spec root names visited c :
  loader_invariant root visited c → NoDup (visited ++ names) →
  ∃ more, more `prefix_of` filter (λ name, isdir root name) names ∧
    ((load_dirs root names c).2 = None →
       more = filter (λ name, isdir root name) names) ∧
    (filter (λ name, isdir root name) names ≠ [] → more ≠ []) ∧
    loader_invariant root (visited ++ more) (load_dirs root names c).1 ∧
    (regular_samples root → (load_dirs root names c).2 = None).
Proof.
  revert visited c. induction names as [|name rest IH]; intros visited c Hinv Hnd.
  { exists []. rewrite app_nil_r. by split_and!. }
  assert (NoDup (visited ++ rest)) as Hnd_rest.
  { apply NoDup_app in Hnd as (? & Hdisj & [_ ?]%NoDup_cons).
    apply NoDup_app. split_and!; [done| |done]. intros x Hx Hr.
    apply (Hdisj x Hx). by right. }
  assert (name ∉ visited) as Hfresh.
  { apply NoDup_app in Hnd as (_ & Hdisj & _). intros Hv.
    apply (Hdisj name Hv). by left. }
  assert (NoDup ((visited ++ [name]) ++ rest)) as Hnd'.
  { by rewrite <- app_assoc. }
  cbn [load_dirs].
  assert (isdir root name = match root !! name with
                            | Some (Dir _) => true | _ => false end) as Hisdir by done.
  destruct (root !! name) as [[content|entries]|] eqn:Hroot.
  { rewrite filter_cons_False by (rewrite Hisdir; intros []). by apply IH. }
  2: { rewrite filter_cons_False by (rewrite Hisdir; intros []). by apply IH. }
  rewrite filter_cons_True by (rewrite Hisdir; exact I).
  set (c1 := Corpus (texts c) _ (labels c)).
  destruct (load_files_spec entries (size (labels_index c))
              (sorted (listdir entries)) c1) as (ts & Ht & Hl & Hi & Hsrc & Hok).
  destruct (load_files entries _ _ c1) as [c2 [e|]] eqn:Hlf; simpl in Ht, Hl, Hi, Hok.
  - exists [name]. split_and!.
    + by apply prefix_cons, prefix_nil.
    + done.
    + done.
    + by eapply loader_invariant_enter.
    + intros Hreg. simpl. apply Hok. intros fname Hf Hdig.
      apply (Hreg name entries fname Hroot Hdig).
      rewrite sorted_perm in Hf. by apply elem_of_listdir.
  - destruct (IH (visited ++ [name]) c2) as (more & Hpre & Hall & Hne & Hinv' & Hreg);
      [by eapply loader_invariant_enter|done|].
    exists (name :: more). split_and!.
    + by apply prefix_cons.
    + intros He. by rewrite (Hall He).
    + done.
    + by rewrite (cons_middle name visited more), app_assoc.
    + done.
Qed.

(** C8.  The loader goes through the immediate subdirectories in
    lexicographic order and gives each the next unused id, starting at 0: the
    name with id [j] is the [j]-th subdirectory, so the smallest one has id 0;
    with [label_name] the only subdirectory the mapping is
    [{label_name: 0}]; and [texts] and [labels] have the same length, with
    [labels[k]] the id of the directory [texts[k]] was read from. *)
Theorem load_corpus_labels root :
  ∃ visited,
    visited `prefix_of` subdirs root ∧
    ((load_corpus root).2 = None → visited = subdirs root) ∧
    (regular_samples root → (load_corpus root).2 = None) ∧
    (StronglySorted (λ x y : string, is_true (String.leb x y)) (subdirs root) ∧
     ∀ name, name ∈ subdirs root ↔ isdir root name) ∧
    (∀ name j, labels_index (load_corpus root).1 !! name = Some j ↔
               visited !! j = Some name) ∧
    (∀ name, isdir root name →
       ∃ first, labels_index (load_corpus root).1 !! first = Some 0 ∧
         isdir root first ∧ ∀ other, isdir root other → String.leb first other) ∧
    (∀ label_name, (∀ name, isdir root name ↔ name = label_name) →
       labels_index (load_corpus root).1 = {[label_name := 0]}) ∧
    length (texts (load_corpus root).1) = length (labels (load_corpus root).1) ∧
    (∀ k t, texts (load_corpus root).1 !! k = Some t →
       ∃ id name, labels (load_corpus root).1 !! k = Some id ∧
         labels_index (load_corpus root).1 !! name = Some id ∧
         sample_of root name t).
Proof.
  destruct (subdirs_spec root) as (Hnd & Hsorted & Hmem).
  destruct (load_dirs_spec root (sorted (listdir root)) [] (Corpus [] ∅ []))
    as (visited & Hpre & Hall & Hne & Hinv & Hreg).
  { split_and!; simpl; try done; apply NoDup_nil_2. }
  { apply sorted_listdir_NoDup. }
  fold (subdirs root) in Hpre, Hall, Hne. fold (load_corpus root) in Hall, Hinv, Hreg.
  simpl in Hinv. destruct Hinv as (_ & Hidx & _ & Hlen & Hsrc).
  assert (∀ name, isdir root name →
            ∃ first, visited !! 0 = Some first ∧ subdirs root !! 0 = Some first)
    as Hhead.
  { intros name Hd. apply Hmem in Hd.
    destruct visited as [|first visited'].
    - exfalso. apply Hne; [|done].
      intros Heq. rewrite Heq in Hd. by apply elem_of_nil in Hd.
    - exists first. split; [done|].
      by apply (prefix_lookup_Some (first :: visited')). }
  exists visited. split_and!; try done.
  - intros name Hd. destruct (Hhead name Hd) as (first & Hv & Hs).
    exists first. split_and!.
    + by apply Hidx.
    + apply Hmem. by eapply list_elem_of_lookup_2.
    + intros other Ho%Hmem. destruct (subdirs root) as [|x l]; [done|].
      simpl in Hs. simplify_eq. apply StronglySorted_cons in Hsorted as [Hall' _].
      apply Is_true_true.
      apply elem_of_cons in Ho as [->|Ho]; [apply string_leb_refl|].
      by eapply Forall_forall in Hall'.
  - intros label_name Honly.
    destruct (Hhead label_name) as (first & Hv & Hs); [by apply Honly|].
    assert (subdirs root = [label_name]) as Hsub.
    { destruct (subdirs root) as [|x l]; [done|].
      assert (x = label_name) as -> by (apply Honly, Hmem; by left).
      destruct l as [|y l]; [done|].
      assert (y = label_name) as -> by (apply Honly, Hmem; right; by left).
      apply NoDup_cons in Hnd as [Hnin _]. destruct Hnin. by left. }
    rewrite Hsub in Hpre, Hs. simpl in Hs. injection Hs as <-.
    assert (visited = [label_name]) as ->.
    { destruct Hpre as [k Hk].
      destruct visited as [|x [|??]]; simpl in *; by simplify_eq. }
    apply map_eq. intros name.
    destruct (decide (name = label_name)) as [->|Hneq].
    + rewrite lookup_singleton_eq. by apply Hidx.
    + rewrite lookup_singleton_ne by done.
      destruct (labels_index _ !! name) as [j|] eqn:Hj; [|done].
      apply Hidx in Hj. destruct j; simpl in Hj; by simplify_eq.
  - intros k t Hk. destruct (Hsrc k t Hk) as (id & name & Hl & Hv & Hsample).
    exists id, name. split_and!; [done| |done]. by apply Hidx.
Qed.

(** ** Sequence encoder *)

Lemma length_pad_sequence maxlen s : length (pad_sequence maxlen s) = maxlen.
Proof.
  unfold pad_sequence. repeat case_decide.
  - rewrite length_app, length_replicate. lia.
  - rewrite length_drop. lia.
  - lia.
Qed.

Lemma Forall_pad_sequence (P : nat → Prop) maxlen s :
  P 0 → Forall P s → Forall P (pad_sequence maxlen s).
Proof.
  intros H0 Hs. unfold pad_sequence. repeat case_decide; [| |done].
  - apply Forall_app. split; [by apply Forall_replicate|done].
  - by apply Forall_drop.
Qed.

Lemma text_to_sequence_bound tokenize (t : Tokenizer) text :
  Forall (λ i, i < tk_num_words t) (text_to_sequence tokenize t text).
Proof.
  unfold text_to_sequence. apply Forall_forall. intros i Hi.
  apply list_elem_of_omap in Hi as (w & _ & Hw).
  destruct (get (tk_word_index t) w) as [j|]; [|done].
  case_decide; [done|]. simplify_eq. lia.
Qed.

(** C3.  Whatever the text, the encoded sequence has exactly [L] entries,
    each in [0, N); with L = 1000 and N = 20000 these are 1000 integers in
    [0, 20000), and so is every row of [data]. *)
Theorem encode_length_and_range tokenize (t : Tokenizer) maxlen text :
  length (encode tokenize t maxlen text) = maxlen ∧
  (0 < tk_num_words t →
     Forall (λ i, 0 ≤ i < tk_num_words t) (encode tokenize t maxlen text)) ∧
  (tk_num_words t = MAX_NUM_WORDS → maxlen = MAX_SEQUENCE_LENGTH →
     length (encode tokenize t maxlen text) = 1000 ∧
     Forall (λ i, 0 ≤ i < 20000) (encode tokenize t maxlen text)) ∧
  (tk_num_words t = MAX_NUM_WORDS → ∀ texts,
     length (data tokenize t texts) = length texts ∧
     Forall (λ row, length row = 1000 ∧ Forall (λ i, 0 ≤ i < 20000) row)
       (data tokenize t texts)).
Proof.
  assert (∀ L text', 0 < tk_num_words t →
          Forall (λ i, 0 ≤ i < tk_num_words t) (encode tokenize t L text')) as Hrange.
  { intros L text' HN. apply Forall_pad_sequence; [lia|].
    eapply Forall_impl; [apply text_to_sequence_bound|]. simpl. lia. }
  assert (0 < MAX_NUM_WORDS) as Hpos by (apply Nat.ltb_lt; vm_compute; reflexivity).
  split; [apply length_pad_sequence|]. split; [apply Hrange|]. split.
  - intros HN ->. split; [apply length_pad_sequence|].
    rewrite HN in Hrange. by apply Hrange.
  - intros HN texts. unfold data, pad_sequences, texts_to_sequences.
    rewrite !length_fmap. split; [done|].
    rewrite <- list_fmap_compose. apply Forall_fmap, Forall_forall.
    intros text' _. simpl. split; [apply length_pad_sequence|].
    rewrite HN in Hrange. by apply (Hrange MAX_SEQUENCE_LENGTH text').
Qed.

(** C4.  A sequence shorter than [L] is padded with 0 on the left; of a
    sequence longer than [L] exactly the last [L] tokens are kept.  With 1500
    tokens and L = 1000 the result is tokens 500..1499, which for distinct
    tokens differs from tokens 0..999. *)
Theorem pad_sequence_policy maxlen (s : list nat) :
  (length s < maxlen →
     pad_sequence maxlen s = replicate (maxlen - length s) 0 ++ s) ∧
  (maxlen < length s →
     pad_sequence maxlen s = drop (length s - maxlen) s ∧
     ∀ j, j < maxlen → pad_sequence maxlen s !! j = s !! (length s - maxlen + j)) ∧
  (length s = 1500 →
     pad_sequence 1000 s = drop 500 s ∧
     (∀ j, j < 1000 → pad_sequence 1000 s !! j = s !! (500 + j)) ∧
     (NoDup s → pad_sequence 1000 s ≠ take 1000 s)).
Proof.
  split; [|split].
  - intros Hlt. unfold pad_sequence. by rewrite decide_True.
  - intros Hgt. unfold pad_sequence.
    rewrite decide_False by lia. rewrite decide_True by done.
    split; [done|]. intros j _. by rewrite lookup_drop.
  - intros Hlen.
    assert (pad_sequence 1000 s = drop 500 s) as ->.
    { unfold pad_sequence. rewrite Hlen.
      rewrite decide_False by lia. by rewrite decide_True by lia. }
    split; [done|]. split; [intros j _; by rewrite lookup_drop|].
    intros Hnd Heq.
    assert (drop 500 s !! 0 = take 1000 s !! 0) as H0 by (by rewrite Heq).
    rewrite lookup_drop, lookup_take_lt in H0 by lia.
    destruct (lookup_lt_is_Some_2 s 0) as [x Hx]; [lia|].
    rewrite Hx in H0. simpl in H0.
    pose proof (NoDup_lookup s _ _ x Hnd H0 Hx). lia.
Qed.

(** ** Vocabulary *)

Lemma frequency_snoc w w' words :
  frequency w (words ++ [w']) = frequency w words + (if decide (w' = w) then 1 else 0).
Proof.
  unfold frequency. rewrite filter_app, length_app. f_equal.
  rewrite filter_cons, filter_nil. by case_decide.
Qed.

Lemma frequency_notin w words : w ∉ words → frequency w words = 0.
Proof.
  intros Hnin. unfold frequency.
  induction words as [|w' words IH]; [done|].
  apply not_elem_of_cons in Hnin as [Hne Hnin].
  rewrite filter_cons_False by done. by apply IH.
Qed.

Lemma first_seen_lt w words : w ∈ words → first_seen w words < length words.
Proof.
  induction words as [|w' words IH]; [by intros ?%elem_of_nil|].
  intros Hin. simpl. case_decide; [lia|].
  apply elem_of_cons in Hin as [?|Hin]; [done|]. specialize (IH Hin). lia.
Qed.

Lemma first_seen_app_l w words more :
  w ∈ words → first_seen w (words ++ more) = first_seen w words.
Proof.
  induction words as [|w' words IH]; [by intros ?%elem_of_nil|].
  intros Hin. simpl. case_decide; [done|].
  apply elem_of_cons in Hin as [?|Hin]; [done|]. by rewrite IH.
Qed.

Lemma first_seen_fresh w words :
  w ∉ words → first_seen w (words ++ [w]) = length words.
Proof.
  induction words as [|w' words IH]; intros Hnin; simpl.
  - by rewrite decide_True.
  - apply not_elem_of_cons in Hnin as [Hne Hnin].
    rewrite decide_False by done. by rewrite IH.
Qed.

Lemma get_count_word w w' counts :
  get (count_word w counts) w' =
  if decide (w' = w) then Some (S (default 0 (get counts w))) else get counts w'.
Proof.
  induction counts as [|[w0 n] counts IH]; cbn [count_word get].
  - destruct (decide (w' = w)) as [->|?]; [done|done].
  - destruct (decide (w = w0)) as [->|Hw0]; cbn [get].
    + destruct (decide (w' = w0)) as [->|?]; [done|done].
    + rewrite IH. destruct (decide (w' = w0)) as [->|?].
      * by rewrite decide_False.
      * done.
Qed.

Lemma get_None (l : list (string * nat)) w : get l w = None ↔ w ∉ l.*1.
Proof.
  induction l as [|[w' n] l IH]; simpl.
  - split; [intros _ ?%elem_of_nil; done|done].
  - case_decide as Hw.
    + subst. split; [done|]. intros Hnin. destruct Hnin. by left.
    + rewrite IH, not_elem_of_cons. naive_solver.
Qed.

Lemma get_Some (l : list (string * nat)) w n :
  NoDup l.*1 → get l w = Some n ↔ (w, n) ∈ l.
Proof.
  induction l as [|[w' n'] l IH]; simpl; intros Hnd.
  - split; [done|by intros ?%elem_of_nil].
  - apply NoDup_cons in Hnd as [Hnin Hnd]. rewrite elem_of_cons, <- (IH Hnd).
    case_decide as Hw.
    + subst. split; [intros [= ->]; by left|].
      intros [[= ->]|Hg]; [done|]. destruct Hnin. apply dec_stable.
      intros Hn%get_None. congruence.
    + split; [by right|]. intros [[= ? ?]|?]; [done|done].
Qed.

Lemma count_word_keys w counts :
  (count_word w counts).*1 = if decide (w ∈ counts.*1) then counts.*1 else counts.*1 ++ [w].
Proof.
  induction counts as [|[w' n] counts IH]; [done|].
  cbn [count_word]. rewrite (fmap_cons fst (w', n) counts). cbn [fst].
  destruct (decide (w = w')) as [->|Hw].
  - rewrite decide_True; [done|by left].
  - rewrite fmap_cons, IH. cbn [fst]. case_decide as Hin.
    + rewrite decide_True; [done|by right].
    + rewrite decide_False; [done|]. by intros [?|?]%elem_of_cons.
Qed.

Lemma StronglySorted_fst (R : relation string) (l : list (string * nat)) :
  StronglySorted R l.*1 ↔ StronglySorted (λ a b, R a.1 b.1) l.
Proof.
  induction l as [|a l IH]; [split; constructor|].
  rewrite fmap_cons, !StronglySorted_cons, IH, Forall_fmap. done.
Qed.

Lemma StronglySorted_on {A} (R R' : relation A) (l : list A) :
  (∀ a b, a ∈ l → b ∈ l → R a b → R' a b) →
  StronglySorted R l → StronglySorted R' l.
Proof.
  induction l as [|a l IH]; intros Himp; [constructor|].
  rewrite !StronglySorted_cons. intros [Hall Hl]. split.
  - apply Forall_forall. intros b Hb. apply Himp; [by left|by right|].
    by eapply Forall_forall in Hall.
  - apply IH; [|done]. intros x y Hx Hy. apply Himp; by right.
Qed.

Lemma StronglySorted_lookup {A} (R : relation A) (l : list A) i j a b :
  StronglySorted R l → i < j → l !! i = Some a → l !! j = Some b → R a b.
Proof.
  intros Hl. revert i j. induction Hl as [|x l Hl IH Hall]; intros i j Hij Hi Hj.
  - by rewrite lookup_nil in Hi.
  - destruct j as [|j]; [lia|]. simpl in Hj. destruct i as [|i]; simpl in Hi.
    + simplify_eq. eapply Forall_forall in Hall; [done|].
      by eapply list_elem_of_lookup_2.
    + apply (IH i j); [lia|done..].
Qed.

(** The frequency count, after any number of words. *)
Lemma word_counts_spec words :
  NoDup (word_counts words).*1 ∧
  (∀ w, get (word_counts words) w =
        if decide (w ∈ words) then Some (frequency w words) else None) ∧
  StronglySorted (seen_before words) (word_counts words).*1.
Proof.
  induction words as [|w words (Hnd & Hget & Hsorted)] using rev_ind.
  { split_and!; [constructor| |constructor].
    intros w. rewrite decide_False; [done|]. by intros ?%elem_of_nil. }
  unfold word_counts in *. rewrite foldl_snoc.
  set (counts := foldl _ [] words) in *.
  assert (∀ u, u ∈ counts.*1 ↔ u ∈ words) as Hkeys.
  { intros u. specialize (Hget u). case_decide as Hu.
    - split; [done|]. intros _. apply dec_stable. intros Hn%get_None. congruence.
    - split; [|done]. intros Hin. by apply get_None in Hget. }
  split_and!.
  - rewrite count_word_keys. case_decide as Hin; [done|].
    apply NoDup_app. split_and!; [done| |apply NoDup_singleton].
    by intros u Hu ->%list_elem_of_singleton.
  - intros u. rewrite get_count_word, frequency_snoc.
    destruct (decide (u = w)) as [->|Hne].
    + rewrite (decide_True (P := w ∈ words ++ [w])) by set_solver.
      rewrite (decide_True (P := w = w)) by done. rewrite Hget. f_equal.
      destruct (decide (w ∈ words)) as [?|Hnin]; simpl; [lia|].
      by rewrite (frequency_notin _ _ Hnin).
    + rewrite (decide_False (P := w = u)) by done. rewrite Hget, Nat.add_0_r.
      destruct (decide (u ∈ words)), (decide (u ∈ words ++ [w])); try done; set_solver.
  - rewrite count_word_keys. case_decide as Hin.
    + eapply StronglySorted_on; [|done]. unfold seen_before.
      intros a b Ha%Hkeys Hb%Hkeys. by rewrite !first_seen_app_l.
    + apply StronglySorted_app. split_and!.
      * intros a b Ha%Hkeys ->%list_elem_of_singleton. unfold seen_before.
        rewrite first_seen_app_l, first_seen_fresh by (done || by rewrite <- Hkeys).
        by apply first_seen_lt.
      * eapply StronglySorted_on; [|done]. unfold seen_before.
        intros a b Ha%Hkeys Hb%Hkeys. by rewrite !first_seen_app_l.
      * repeat constructor.
Qed.

Lemma insert_by_count_perm x l : insert_by_count x l ≡ₚ x :: l.
Proof.
  induction l as [|y l IH]; [done|]. cbn [insert_by_count].
  case_decide; [|done]. rewrite IH. apply Permutation_swap.
Qed.

Lemma sort_by_count_perm counts : sort_by_count counts ≡ₚ counts.
Proof.
  induction counts as [|x l IH]; [done|].
  cbn [sort_by_count foldr]. fold (sort_by_count l).
  by rewrite insert_by_count_perm, IH.
Qed.

(** Inserting a pair that was seen before every pair of a ranked list. *)
Lemma insert_by_count_ranked words x l :
  Forall (λ y, seen_before words x.1 y.1) l →
  StronglySorted (ranks_before words) l →
  StronglySorted (ranks_before words) (insert_by_count x l).
Proof.
  intros Hx Hl. induction Hl as [|y l Hl IH Hy]; cbn [insert_by_count].
  { repeat constructor. }
  apply Forall_cons in Hx as [Hxy Hxl]. case_decide as Hlt.
  - constructor; [by apply IH|].
    rewrite insert_by_count_perm. constructor; [by left|done].
  - constructor; [by constructor|]. constructor.
    + unfold ranks_before. destruct (decide (x.2 = y.2)); [by right|left; lia].
    + apply Forall_forall. intros z Hz.
      eapply Forall_forall in Hy as Hyz; [|done].
      eapply Forall_forall in Hxl as Hxz; [|done].
      unfold ranks_before in *.
      destruct (decide (x.2 = z.2)); [by right|left; lia].
Qed.

(** The stable sort ranks the counts, given in first-seen order. *)
Lemma sort_by_count_ranked words counts :
  StronglySorted (seen_before words) counts.*1 →
  StronglySorted (ranks_before words) (sort_by_count counts).
Proof.
  rewrite StronglySorted_fst.
  induction 1 as [|x l Hl IH Hx]; [constructor|].
  cbn [sort_by_count foldr]. fold (sort_by_count l).
  apply insert_by_count_ranked; [|done]. by rewrite sort_by_count_perm.
Qed.

Lemma build_word_index_lookup words j w i :
  build_word_index words !! j = Some (w, i) ↔
  i = S j ∧ ∃ n, sort_by_count (word_counts words) !! j = Some (w, n).
Proof.
  unfold build_word_index. rewrite lookup_zip_Some, lookup_seq, length_fmap.
  rewrite list_lookup_fmap. split.
  - intros (Hw & -> & Hj). split; [done|].
    destruct (sort_by_count (word_counts words) !! j) as [[w' n]|]; [|done].
    simpl in Hw. simplify_eq. by exists n.
  - intros (-> & n & Hn). rewrite Hn. split_and!; [done..|].
    by eapply lookup_lt_Some.
Qed.

Lemma get_zip_seq (keys : list string) w i k :
  NoDup keys → (w, i) ∈ zip keys (seq k (length keys)) →
  get (zip keys (seq k (length keys))) w = Some i.
Proof.
  revert k. induction keys as [|w' keys IH]; intros k Hnd; [by intros ?%elem_of_nil|].
  apply NoDup_cons in Hnd as [Hnin Hnd]. cbn [length seq zip zip_with get].
  intros [[= -> ->]|Hin]%elem_of_cons.
  - by rewrite decide_True.
  - rewrite decide_False; [by apply IH|].
    intros ->. apply Hnin. by eapply elem_of_zip_l.
Qed.

(** C7.  The vocabulary built from a corpus numbers the words 1, 2, 3, ...
    without gaps or repeats (0 is never used), in order of decreasing
    frequency with ties in first-seen order, and holds every distinct word of
    the corpus whatever [num_words] is: a word with index >= N is still an
    entry of the mapping and is left out only when a text is encoded. *)
Theorem word_index_dense_by_frequency tokenize (t : Tokenizer) texts :
  let words := corpus_words tokenize texts in
  let t' := fit_on_texts tokenize t texts in
  let wi := tk_word_index t' in
  wi.*2 = seq 1 (length wi) ∧ (0 ∉ wi.*2) ∧ dense_vocab wi ∧
  (∀ w, w ∈ words ↔ ∃ i, (w, i) ∈ wi) ∧
  (∀ w1 i1 w2 i2, (w1, i1) ∈ wi → (w2, i2) ∈ wi → i1 < i2 →
     frequency w2 words ≤ frequency w1 words ∧
     (frequency w1 words = frequency w2 words →
      first_seen w1 words < first_seen w2 words)) ∧
  tk_num_words t' = tk_num_words t ∧
  (∀ w i, (w, i) ∈ wi → get wi w = Some i ∧
     (tk_num_words t ≤ i → ∀ text, i ∉ text_to_sequence tokenize t' text)).
Proof.
  intros words t' wi.
  destruct (word_counts_spec words) as (Hnd & Hget & Hseen).
  pose proof (sort_by_count_perm (word_counts words)) as Hperm.
  pose proof (sort_by_count_ranked words _ Hseen) as Hranked.
  assert (wi = build_word_index words) as Hwi by done.
  assert (wi.*1 = (sort_by_count (word_counts words)).*1) as Hfst.
  { rewrite Hwi. unfold build_word_index. rewrite fst_zip; [done|].
    by rewrite length_seq. }
  assert (length wi = length (sort_by_count (word_counts words))) as Hlen.
  { by rewrite <- (length_fmap fst wi), Hfst, length_fmap. }
  assert (wi.*2 = seq 1 (length wi)) as Hsnd.
  { rewrite Hlen, Hwi. unfold build_word_index. rewrite length_fmap.
    rewrite snd_zip; [done|]. by rewrite length_seq, length_fmap. }
  assert (NoDup wi.*1) as Hnd_wi by (by rewrite Hfst, Hperm).
  assert (∀ w n, (w, n) ∈ sort_by_count (word_counts words) →
                 w ∈ words ∧ n = frequency w words) as Hfreq.
  { intros w n Hin. rewrite Hperm in Hin. apply (get_Some _ _ _ Hnd) in Hin.
    rewrite Hget in Hin. case_decide; by simplify_eq. }
  split_and!.
  - done.
  - rewrite Hsnd, elem_of_seq. lia.
  - split; [done|]. by rewrite Hsnd.
  - intros w. split.
    + intros Hw. assert (w ∈ wi.*1) as Hin.
      { rewrite Hfst, Hperm. apply dec_stable. intros Hn%get_None.
        rewrite Hget, decide_True in Hn by done. done. }
      apply list_elem_of_fmap in Hin as ([w' i] & -> & Hin). by exists i.
    + intros [i Hin]. apply list_elem_of_lookup in Hin as [j Hj].
      rewrite Hwi in Hj. apply build_word_index_lookup in Hj as (_ & n & Hn).
      apply list_elem_of_lookup_2 in Hn. by apply Hfreq in Hn as [? _].
  - intros w1 i1 w2 i2 [j1 Hj1]%list_elem_of_lookup [j2 Hj2]%list_elem_of_lookup Hlt.
    rewrite Hwi in Hj1, Hj2.
    apply build_word_index_lookup in Hj1 as (-> & n1 & Hn1).
    apply build_word_index_lookup in Hj2 as (-> & n2 & Hn2).
    assert (ranks_before words (w1, n1) (w2, n2)) as Hrank.
    { apply (StronglySorted_lookup _ _ j1 j2 _ _ Hranked); [lia|done..]. }
    apply list_elem_of_lookup_2, Hfreq in Hn1 as [_ ->].
    apply list_elem_of_lookup_2, Hfreq in Hn2 as [_ ->].
    unfold ranks_before, seen_before in Hrank. simpl in Hrank.
    destruct Hrank as [?|[? ?]]; split; (lia || done).
  - done.
  - intros w i Hin.
    assert (get wi w = Some i) as Hg.
    { rewrite Hwi in Hin |- *. unfold build_word_index in *.
      apply get_zip_seq; [|done]. by rewrite <- Hfst. }
    split; [done|]. intros HN text Hi.
    pose proof (text_to_sequence_bound tokenize t' text) as Hb.
    eapply Forall_forall in Hb; [|done]. simpl in Hb. lia.
Qed.

(** ** Pre-trained embedding index *)

Section EmbeddingsIndexFacts.
Context {coef : Type} (float32 : string → option coef).
Implicit Types (emb : gmap string (list coef)) (toks : list string).

Lemma asarray_ok toks coefs :
  Forall2 (λ tok c, float32 tok = Some c) toks coefs →
  asarray float32 toks = inr coefs.
Proof.
  induction 1 as [|tok c toks coefs Hc _ IH]; [done|].
  cbn [asarray]. by rewrite Hc, IH.
Qed.

Lemma asarray_bad toks :
  (∃ tok, tok ∈ toks ∧ float32 tok = None) →
  ∃ tok, tok ∈ toks ∧ float32 tok = None ∧
    asarray float32 toks = inl (ValueError tok).
Proof.
  induction toks as [|tok toks IH]; intros (bad & Hin & Hbad).
  { by apply elem_of_nil in Hin. }
  cbn [asarray]. destruct (float32 tok) as [c|] eqn:Hc.
  - apply elem_of_cons in Hin as [->|Hin]; [congruence|].
    destruct IH as (tok' & Hin' & Hbad' & ->); [by exists bad|].
    exists tok'. split_and!; [by right|done..].
  - exists tok. split_and!; [by left|done..].
Qed.

Lemma parse_lines_app before after emb emb' :
  parse_lines float32 before emb = (emb', None) →
  parse_lines float32 (before ++ after) emb = parse_lines float32 after emb'.
Proof.
  revert emb. induction before as [|line before IH]; intros emb; simpl.
  { by intros [= ->]. }
  destruct (parse_line float32 line) as [e|[word coefs]]; [done|]. apply IH.
Qed.

(** C6, as the code has it.  A line with a coefficient that is not a float
    literal stops the parser with a ValueError naming such a token of that
    line; the entries of the lines before it are kept and nothing is stored
    for that line or the lines after it.  The number of coefficients is not
    checked: a line whose coefficients all convert is stored with as many
    entries as it has coefficient tokens. *)
Theorem build_embeddings_index_malformed before line after emb word toks :
  build_embeddings_index float32 before = (emb, None) →
  split line = word :: toks →
  ((∃ tok, tok ∈ toks ∧ float32 tok = None) →
     ∃ tok, tok ∈ toks ∧ float32 tok = None ∧
       build_embeddings_index float32 (before ++ line :: after)
         = (emb, Some (ValueError tok))) ∧
  (∀ coefs, Forall2 (λ tok c, float32 tok = Some c) toks coefs →
     length coefs = length toks ∧
     build_embeddings_index float32 (before ++ [line])
       = (<[word := coefs]> emb, None)).
Proof.
  unfold build_embeddings_index. intros Hbefore Hsplit. split.
  - intros Hbad. destruct (asarray_bad toks Hbad) as (tok & Hin & Hnone & Harr).
    exists tok. split_and!; [done..|].
    rewrite (parse_lines_app _ _ _ _ Hbefore). cbn [parse_lines].
    unfold parse_line. by rewrite Hsplit, Harr.
  - intros coefs Hall. split; [symmetry; by eapply Forall2_length|].
    rewrite (parse_lines_app _ _ _ _ Hbefore). cbn [parse_lines].
    unfold parse_line. by rewrite Hsplit, (asarray_ok _ _ Hall).
Qed.
End EmbeddingsIndexFacts.

(** The dimension check of C6 is not in the code: the second line of the
    sample file has one coefficient where the first has two; the parser
    raises nothing and the index ends up with vectors of two different
    dimensions. *)
Lemma build_embeddings_index_mixed_dimensions :
  build_embeddings_index integer_literal sample_glove_lines
    = (<["sat" := [3]%Z]> (<["the" := [1; 2]%Z]> ∅), None) ∧
  (build_embeddings_index integer_literal sample_glove_lines).1 !! "the"
    = Some [1; 2]%Z ∧
  (build_embeddings_index integer_literal sample_glove_lines).1 !! "sat"
    = Some [3]%Z ∧
  ¬ ∃ D, dimension D (build_embeddings_index integer_literal sample_glove_lines).1.
Proof.
  assert (build_embeddings_index integer_literal sample_glove_lines
          = (<["sat" := [3]%Z]> (<["the" := [1; 2]%Z]> ∅), None)) as Heq.
  { vm_compute. reflexivity. }
  split; [exact Heq|]. rewrite Heq. split; [reflexivity|]. split; [reflexivity|].
  intros [D HD].
  pose proof (HD "the" [1; 2]%Z eq_refl) as H1.
  pose proof (HD "sat" [3]%Z eq_refl) as H2.
  simpl in H1, H2. congruence.
Qed.

Lemma build_embeddings_index_malformed_witness :
  ∃ tok, tok ∈ ["5"; "x7"] ∧ integer_literal tok = None ∧
    build_embeddings_index integer_literal sample_bad_glove_lines
      = (<["the" := [1; 2]%Z]> ∅, Some (ValueError tok)).
Proof.
  apply (build_embeddings_index_malformed integer_literal
           ["the 1 2" +:+ String newline EmptyString]
           ("cat 5 x7" +:+ String newline EmptyString)
           ["sat 3 4" +:+ String newline EmptyString]
           (<["the" := [1; 2]%Z]> ∅) "cat" ["5"; "x7"]).
  - vm_compute. reflexivity.
  - vm_compute. reflexivity.
  - exists "x7". split; [right; left|vm_compute; reflexivity].
Defined.

Section EmbeddingMatrixFacts.
Context {coef : Type} (zero : coef).
Implicit Types (m : list (list coef)) (v : list coef).
Implicit Types (items wi : list (string * nat)) (emb : gmap string (list coef)).

Lemma set_row_shape m i v m' D :
  Forall (λ r, length r = D) m → set_row m i v = inr m' →
  length m' = length m ∧ Forall (λ r, length r = D) m'.
Proof.
  unfold set_row. intros HD H.
  destruct (m !! i) as [row|] eqn:Hrow; [|done].
  assert (length row = D) as Hlen by (eapply Forall_lookup_1 in HD; eauto).
  case_decide.
  - simplify_eq. rewrite length_insert. split; [done|].
    apply Forall_insert; [done|congruence].
  - destruct v as [|c [|??]]; simplify_eq.
    rewrite length_insert. split; [done|].
    apply Forall_insert; [done|]. by rewrite length_replicate.
Qed.

Lemma set_row_ok m i v D :
  Forall (λ r, length r = D) m → i < length m → length v = D →
  set_row m i v = inr (<[i := v]> m).
Proof.
  intros HD Hi Hv. unfold set_row.
  destruct (lookup_lt_is_Some_2 m i Hi) as [row Hrow]. rewrite Hrow.
  eapply Forall_lookup_1 in HD; [|done]. simpl in HD.
  rewrite decide_True; [done|congruence].
Qed.

Lemma set_row_not_IndexError m i v :
  i < length m → set_row m i v ≠ inl IndexError.
Proof.
  intros Hi. unfold set_row.
  destruct (lookup_lt_is_Some_2 m i Hi) as [row ->].
  case_decide; [done|]. by destruct v as [|c [|??]].
Qed.

Lemma guarded_write_Some N emb word i j v :
  guarded_write N emb (word, i) = Some (j, v) ↔
  j = i ∧ i < N ∧ emb !! word = Some v.
Proof.
  unfold guarded_write. case_decide.
  - split; [done|]. intros (_ & ? & _). lia.
  - destruct (emb !! word) as [v'|].
    + split; [intros [= <- <-]|intros (-> & _ & [= ->])]; [|done].
      split; [done|]. split; [lia|done].
    + split; [done|]. by intros (_ & _ & ?).
Qed.

Lemma guarded_write_None N emb word i :
  guarded_write N emb (word, i) = None ↔ N ≤ i ∨ emb !! word = None.
Proof.
  unfold guarded_write. case_decide; [by split; [left|]|].
  destruct (emb !! word) as [v'|].
  - split; [done|]. intros [?|?]; [lia|done].
  - split; [by right|done].
Qed.

(** The loop never changes the shape of the array. *)
Lemma fill_shape N emb items m D :
  Forall (λ r, length r = D) m →
  length (fill N emb items m).1 = length m ∧
  Forall (λ r, length r = D) (fill N emb items m).1.
Proof.
  revert m. induction items as [|item rest IH]; intros m HD; simpl; [done|].
  destruct (guarded_write N emb item) as [[i v]|]; [|by apply IH].
  destruct (set_row m i v) as [e|m'] eqn:Hset; [done|].
  destruct (set_row_shape _ _ _ _ _ HD Hset) as [Hl HD'].
  rewrite <- Hl. by apply IH.
Qed.

(** No IndexError as long as every guarded index is a row of the array. *)
Lemma fill_no_IndexError N emb items m :
  (∀ word i, (word, i) ∈ items → i < N → i < length m) →
  (fill N emb items m).2 ≠ Some IndexError.
Proof.
  revert m. induction items as [|[word i] rest IH]; intros m Hin; [done|].
  cbn [fill].
  destruct (guarded_write N emb (word, i)) as [[j v]|] eqn:Hg.
  - apply guarded_write_Some in Hg as (-> & HiN & Hv).
    assert (i < length m) as Hlt by (apply (Hin word i); [by left|done]).
    destruct (set_row m i v) as [e|m'] eqn:Hset.
    + simpl. intros [= ->]. by apply (set_row_not_IndexError m i v).
    + apply IH. intros w j Hj HjN.
      assert (length m' = length m) as ->.
      { unfold set_row in Hset. destruct (m !! i); [|done].
        case_decide; [simplify_eq; by rewrite length_insert|].
        destruct v as [|c [|??]]; simplify_eq. by rewrite length_insert. }
      apply (Hin w j); [by right|done].
  - apply IH. intros w j Hj HjN. apply (Hin w j); [by right|done].
Qed.

(** What the loop leaves in the array when every guarded index is a row,
    no index occurs twice and all vectors have the row length. *)
Lemma fill_spec N D emb items m :
  dimension D emb → Forall (λ r, length r = D) m →
  NoDup items.*2 →
  (∀ word i, (word, i) ∈ items → i < N → i < length m) →
  ∃ M, fill N emb items m = (M, None) ∧
    (∀ word i, (word, i) ∈ items → i < N →
       M !! i = match emb !! word with Some v => Some v | None => m !! i end) ∧
    (∀ j, j ∉ items.*2 → M !! j = m !! j).
Proof.
  intros Hdim. revert m.
  induction items as [|[word i] rest IH]; intros m HD Hnd Hin; cbn [fill].
  { exists m. split; [done|]. split; [|done]. intros ?? H. by apply elem_of_nil in H. }
  rewrite fmap_cons in Hnd. apply NoDup_cons in Hnd as [Hi Hnd]. simpl in Hi.
  assert (∀ m', length m' = length m → Forall (λ r, length r = D) m' →
            (∀ j, j ≠ i → m' !! j = m !! j) →
            (i < N → m' !! i = match emb !! word with
                               | Some v => Some v | None => m !! i end) →
    ∃ M, fill N emb rest m' = (M, None) ∧
      (∀ word0 i0, (word0, i0) ∈ (word, i) :: rest → i0 < N →
         M !! i0 = match emb !! word0 with Some v => Some v | None => m !! i0 end) ∧
      (∀ j, j ∉ i :: rest.*2 → M !! j = m !! j)) as Hstep.
  { intros m' Hlen HD' Hother Hself.
    destruct (IH m' HD' Hnd) as (M & HM & Hrows & Hrest).
    { intros w j Hj HjN. rewrite Hlen. apply (Hin w j); [by right|done]. }
    exists M. split; [done|]. split.
    - intros w j Hj HjN. apply elem_of_cons in Hj as [Hj|Hj].
      + simplify_eq. rewrite (Hrest i Hi). by apply Hself.
      + rewrite (Hrows w j Hj HjN). rewrite Hother; [done|].
        intros ->. apply Hi. apply list_elem_of_fmap. by exists (w, i).
    - intros j Hj. apply not_elem_of_cons in Hj as [Hne Hj].
      rewrite (Hrest j Hj). by apply Hother. }
  destruct (guarded_write N emb (word, i)) as [[j v]|] eqn:Hg.
  - apply guarded_write_Some in Hg as (-> & HiN & Hv).
    assert (i < length m) as Hlt by (apply (Hin word i); [by left|lia]).
    rewrite (set_row_ok m i v D HD Hlt (Hdim _ _ Hv)).
    apply Hstep.
    + by rewrite length_insert.
    + apply Forall_insert; [done|]. exact (Hdim _ _ Hv).
    + intros j Hj. by rewrite list_lookup_insert_ne.
    + intros _. by rewrite Hv, list_lookup_insert_eq.
  - apply guarded_write_None in Hg. apply Hstep; [done..|].
    intros HiN. destruct Hg as [?|Hv]; [lia|by rewrite Hv].
Qed.

Lemma dense_vocab_bounds wi word i :
  dense_vocab wi → (word, i) ∈ wi → 1 ≤ i ≤ length wi.
Proof.
  intros [_ Hperm] Hin.
  assert (i ∈ wi.*2) as Hi by (apply list_elem_of_fmap; by exists (word, i)).
  rewrite Hperm in Hi. apply elem_of_seq in Hi. lia.
Qed.

Lemma dense_vocab_NoDup wi : dense_vocab wi → NoDup wi.*2.
Proof. intros [_ Hperm]. rewrite Hperm. apply NoDup_seq. Qed.

Lemma max_list_snoc (l : list nat) x : max_list (l ++ [x]) = max_list l `max` x.
Proof. induction l as [|a l IH]; simpl; [lia|]. rewrite IH. lia. Qed.

Lemma dense_vocab_max wi : dense_vocab wi → max_list wi.*2 = length wi.
Proof.
  intros [_ Hperm]. rewrite Hperm. generalize (length wi) as n.
  intros n. induction n as [|n IH]; [done|].
  rewrite seq_S, max_list_snoc, IH. lia.
Qed.

Lemma zeros_shape rows D :
  length (zeros zero rows D) = rows ∧
  Forall (λ r, length r = D) (zeros zero rows D).
Proof.
  unfold zeros. rewrite length_replicate. split; [done|].
  apply Forall_replicate, length_replicate.
Qed.

Lemma zeros_lookup rows D i :
  i < rows → zeros zero rows D !! i = Some (replicate D zero).
Proof. intros. by apply lookup_replicate_2. Qed.

(** C1.  For a vocabulary with the tokenizer's invariant and an embedding
    index of dimension [D], the builder returns a matrix whose row [index],
    for every vocabulary pair [(word, index)] with [index < num_rows], is
    the word's embedding vector when the word is in the embedding index and
    the all-zero vector of length [D] when it is not; row 0 is the all-zero
    vector (the matrix has a row 0 as soon as [max_words] is positive). *)
Theorem embedding_matrix_rows N D wi emb :
  dense_vocab wi → dimension D emb →
  ∃ M, embedding_matrix zero N D wi emb = (M, None) ∧
    (∀ word index, (word, index) ∈ wi → index < num_words N wi →
       M !! index = Some (default (replicate D zero) (emb !! word))) ∧
    (0 < N → M !! 0 = Some (replicate D zero)).
Proof.
  intros Hwi Hdim. unfold embedding_matrix.
  destruct (zeros_shape (num_words N wi) D) as [Hlen HD].
  destruct (fill_spec N D emb wi _ Hdim HD (dense_vocab_NoDup _ Hwi))
    as (M & HM & Hrows & Hrest).
  { intros word i Hin HiN. rewrite Hlen. unfold num_words.
    pose proof (dense_vocab_bounds _ _ _ Hwi Hin). lia. }
  exists M. split; [done|]. split.
  - intros word i Hin Hi. rewrite (Hrows word i Hin); [|unfold num_words in Hi; lia].
    destruct (emb !! word); [done|]. by rewrite zeros_lookup.
  - intros HN. rewrite Hrest.
    + apply zeros_lookup. unfold num_words. lia.
    + intros H0. apply list_elem_of_fmap in H0 as ([word i] & Hi & Hin).
      simpl in Hi. subst i. pose proof (dense_vocab_bounds _ _ _ Hwi Hin). lia.
Qed.

(** C2.  For a vocabulary whose largest index is [V], the matrix has
    exactly [min(N, V + 1)] rows and [D] columns (and the builder raises
    nothing when the embedding index has dimension [D]); with 50 words,
    [N = 20000] and [D = 100] the shape is (51, 100). *)
Theorem embedding_matrix_shape N D wi emb :
  dense_vocab wi →
  let M := (embedding_matrix zero N D wi emb).1 in
  (length M = N `min` (max_list wi.*2 + 1) ∧ Forall (λ row, length row = D) M) ∧
  (dimension D emb → (embedding_matrix zero N D wi emb).2 = None) ∧
  (length wi = 50 → N = MAX_NUM_WORDS → D = EMBEDDING_DIM →
     length M = 51 ∧ Forall (λ row, length row = 100) M).
Proof.
  intros Hwi M.
  destruct (zeros_shape (num_words N wi) D) as [Hlen HD].
  destruct (fill_shape N emb wi _ D HD) as [HlenM HDM].
  fold (embedding_matrix zero N D wi emb) in HlenM, HDM. fold M in HlenM, HDM.
  rewrite Hlen in HlenM. unfold num_words in HlenM.
  split; [|split].
  - by rewrite (dense_vocab_max _ Hwi).
  - intros Hdim.
    destruct (embedding_matrix_rows N D wi emb Hwi Hdim) as (M' & -> & _). done.
  - intros H50 -> ->. rewrite H50 in HlenM. split; [|done].
    rewrite HlenM. vm_compute. done.
Qed.

Lemma contents_lookup (h : gmap nat (@object coef)) (d : gmap string nat) word :
  contents h d !! word =
  match d !! word with
  | Some a => match h !! a with Some (Vector v) => Some v | _ => None end
  | None => None
  end.
Proof. unfold contents. rewrite lookup_omap. by destruct (d !! word). Qed.

(** Overwriting a matrix changes the contents of no embedding vector. *)
Lemma contents_insert_matrix (h : gmap nat (@object coef)) d a m m' :
  h !! a = Some (Matrix m) →
  contents (<[a := Matrix m']> h) d = contents h d.
Proof.
  intros Ha. apply map_eq. intros word. rewrite !contents_lookup.
  destruct (d !! word) as [b|]; [|done].
  destruct (decide (b = a)) as [->|Hne].
  - by rewrite lookup_insert_eq, Ha.
  - by rewrite lookup_insert_ne.
Qed.

(** The loop on the heap computes what [fill] computes on the contents of
    the heap, leaves the result in the array at [m_addr] and writes nowhere
    else. *)
Lemma fill_in_place_spec N e_addr m_addr d items (h : gmap nat (@object coef)) m :
  h !! e_addr = Some (EmbeddingsIndex d) →
  h !! m_addr = Some (Matrix m) →
  (∀ word a, d !! word = Some a → ∃ v, h !! a = Some (Vector v)) →
  ∃ h', fill_in_place N e_addr m_addr items h
          = Some (h', (fill N (contents h d) items m).2) ∧
    h' !! m_addr = Some (Matrix (fill N (contents h d) items m).1) ∧
    ∀ a, a ≠ m_addr → h' !! a = h !! a.
Proof.
  revert h m. induction items as [|[word i] rest IH]; intros h m He Hm Hd.
  { exists h. by split_and!. }
  cbn [fill_in_place fill]. unfold guarded_write.
  destruct (decide (N ≤ i)) as [?|HiN]; [by apply IH|].
  rewrite He, contents_lookup.
  destruct (d !! word) as [a|] eqn:Hword; [|by apply IH].
  destruct (Hd word a Hword) as [v Hv]. rewrite Hv, Hm.
  destruct (set_row m i v) as [e|m'] eqn:Hset.
  { exists h. by split_and!. }
  assert (e_addr ≠ m_addr) as Hem by (intros ->; congruence).
  destruct (IH (<[m_addr := Matrix m']> h) m') as (h' & Hrun & Hres & Hframe).
  - by rewrite lookup_insert_ne.
  - apply lookup_insert_eq.
  - intros w b Hb. destruct (Hd w b Hb) as [vb Hvb]. exists vb.
    rewrite lookup_insert_ne; [done|]. intros ->. congruence.
  - rewrite (contents_insert_matrix h d m_addr m m' Hm) in Hrun, Hres.
    exists h'. split_and!; [done..|].
    intros b Hb. rewrite (Hframe b Hb). by apply lookup_insert_ne.
Qed.

(** One run of the cell from a heap that holds its inputs. *)
Lemma run_cell_once N D ns (h : gmap nat (@object coef)) items d :
  cell_inputs h ns items d →
  ∃ ns1 h1 addr1,
    run_cell zero N D ns h
      = Some (ns1, h1, (embedding_matrix zero N D items (contents h d)).2) ∧
    n_embedding_matrix ns1 = Some addr1 ∧ (addr1 ∉ dom h) ∧
    h1 !! addr1 = Some (Matrix (embedding_matrix zero N D items (contents h d)).1) ∧
    (∀ a, a ∈ dom h → h1 !! a = h !! a) ∧
    cell_inputs h1 ns1 items d ∧ contents h1 d = contents h d.
Proof.
  intros (Hw & He & Hd). unfold run_cell. rewrite Hw.
  set (addr1 := fresh (dom h)).
  assert (addr1 ∉ dom h) as Hfresh by apply is_fresh.
  assert (h !! addr1 = None) as Hnone by (by apply not_elem_of_dom).
  assert (∀ a, a ∈ dom h → a ≠ addr1) as Hold by (intros a Ha ->; done).
  set (h0 := <[addr1 := Matrix (zeros zero (num_words N items) D)]> h).
  assert (contents h0 d = contents h d) as Hc0.
  { apply map_eq. intros word. rewrite !contents_lookup.
    destruct (d !! word) as [a|] eqn:Hword; [|done].
    destruct (Hd word a Hword) as [v Hv]. subst h0.
    rewrite lookup_insert_ne; [done|].
    intros Heq. rewrite Heq in Hnone. congruence. }
  destruct (fill_in_place_spec N (n_embeddings_index ns) addr1 d items h0
              (zeros zero (num_words N items) D))
    as (h1 & Hrun & Hres & Hframe).
  { subst h0. rewrite lookup_insert_ne; [done|].
    intros Heq. rewrite Heq in Hnone. congruence. }
  { subst h0. apply lookup_insert_eq. }
  { intros word a Hword. destruct (Hd word a Hword) as [v Hv]. exists v.
    subst h0. rewrite lookup_insert_ne; [done|].
    intros Heq. rewrite Heq in Hnone. congruence. }
  rewrite Hc0 in Hrun, Hres. fold (embedding_matrix zero N D items (contents h d))
    in Hrun, Hres.
  rewrite Hrun.
  assert (∀ a, a ∈ dom h → h1 !! a = h !! a) as Hsame.
  { intros a Ha. rewrite (Hframe a (Hold a Ha)). subst h0.
    apply lookup_insert_ne. intros Heq. by apply (Hold a). }
  assert (∀ a x, h !! a = Some x → h1 !! a = Some x) as Hkeep.
  { intros a x Ha. rewrite Hsame; [done|]. apply elem_of_dom. by eexists. }
  eexists _, h1, addr1. split_and!; [done..| |].
  - split_and!; cbn [n_word_index n_embeddings_index]; [by apply Hkeep..|].
    intros word a Hword. destruct (Hd word a Hword) as [v Hv]. exists v.
    by apply Hkeep.
  - apply map_eq. intros word. rewrite !contents_lookup.
    destruct (d !! word) as [a|] eqn:Hword; [|done].
    destruct (Hd word a Hword) as [v Hv]. by rewrite (Hkeep a _ Hv), Hv.
Qed.

(** C9.  From a heap that holds the vocabulary and the embedding index, the
    cell puts into a newly allocated array exactly the matrix that is a
    function of the vocabulary and of the contents of the embedding index,
    and changes no object that existed before: neither dict, none of the
    embedding vectors.  Run a second time, it builds an identical matrix in
    another new array, with the same outcome, and leaves the first matrix
    and all earlier objects as they were. *)
Theorem run_cell_pure N D ns (h : gmap nat (@object coef)) items d :
  cell_inputs h ns items d →
  ∃ ns1 h1 addr1,
    run_cell zero N D ns h
      = Some (ns1, h1, (embedding_matrix zero N D items (contents h d)).2) ∧
    n_embedding_matrix ns1 = Some addr1 ∧ (addr1 ∉ dom h) ∧
    h1 !! addr1 = Some (Matrix (embedding_matrix zero N D items (contents h d)).1) ∧
    (∀ a, a ∈ dom h → h1 !! a = h !! a) ∧
    ∃ ns2 h2 addr2,
      run_cell zero N D ns1 h1
        = Some (ns2, h2, (embedding_matrix zero N D items (contents h d)).2) ∧
      n_embedding_matrix ns2 = Some addr2 ∧ addr2 ≠ addr1 ∧
      h2 !! addr2 = Some (Matrix (embedding_matrix zero N D items (contents h d)).1) ∧
      h2 !! addr1 = Some (Matrix (embedding_matrix zero N D items (contents h d)).1) ∧
      (∀ a, a ∈ dom h → h2 !! a = h !! a).
Proof.
  intros Hin.
  destruct (run_cell_once N D ns h items d Hin)
    as (ns1 & h1 & addr1 & Hrun1 & Hm1 & Hfresh1 & Hres1 & Hsame1 & Hin1 & Hc1).
  destruct (run_cell_once N D ns1 h1 items d Hin1)
    as (ns2 & h2 & addr2 & Hrun2 & Hm2 & Hfresh2 & Hres2 & Hsame2 & _ & _).
  rewrite Hc1 in Hrun2, Hres2.
  assert (addr1 ∈ dom h1) as Hm1dom by (apply elem_of_dom; by eexists).
  assert (∀ a, a ∈ dom h → a ∈ dom h1) as Hdom.
  { intros a Ha. apply elem_of_dom. rewrite (Hsame1 a Ha). by apply elem_of_dom. }
  exists ns1, h1, addr1. split_and!; [done..|].
  exists ns2, h2, addr2. split_and!; [done..| |done| |].
  - intros ->. done.
  - by rewrite (Hsame2 addr1 Hm1dom).
  - intros a Ha. by rewrite (Hsame2 a (Hdom a Ha)), (Hsame1 a Ha).
Qed.

(** C10.  With vocabulary indices between 1 and the number of distinct
    words, every row assignment the loop performs has [i < MAX_NUM_WORDS]
    and [0 < i < num_rows], so the assignment never raises IndexError. *)
Theorem fill_writes_in_bounds N D wi emb :
  dense_vocab wi →
  (∀ item i v, item ∈ wi → guarded_write N emb item = Some (i, v) →
     i < N ∧ 0 < i < num_words N wi ∧
     i < length (zeros zero (num_words N wi) D)) ∧
  (embedding_matrix zero N D wi emb).2 ≠ Some IndexError.
Proof.
  intros Hwi.
  assert (∀ word i, (word, i) ∈ wi → i < N → 0 < i < num_words N wi) as Hb.
  { intros word i Hin HiN. pose proof (dense_vocab_bounds _ _ _ Hwi Hin).
    unfold num_words. lia. }
  destruct (zeros_shape (num_words N wi) D) as [Hlen _].
  split.
  - intros [word j] i v Hin Hg. apply guarded_write_Some in Hg as (-> & HjN & _).
    rewrite Hlen. specialize (Hb word j Hin HjN). lia.
  - apply fill_no_IndexError. intros word i Hin HiN. rewrite Hlen.
    specialize (Hb word i Hin HiN). lia.
Qed.
End EmbeddingMatrixFacts.

Ltac sample_dense :=
  split; [apply (bool_decide_unpack _); vm_compute; exact I | reflexivity].

Ltac sample_dimension :=
  unfold dimension, sample_embeddings_index;
  repeat (apply map_Forall_insert_2; [reflexivity|]); apply map_Forall_empty.

Lemma embedding_matrix_rows_witness :
  dense_vocab sample_word_index ∧ dimension 2 sample_embeddings_index ∧
  ∃ M, embedding_matrix 0%Z 3 2 sample_word_index sample_embeddings_index = (M, None) ∧
    (∀ word index, (word, index) ∈ sample_word_index →
       index < num_words 3 sample_word_index →
       M !! index = Some (default (replicate 2 0%Z) (sample_embeddings_index !! word))) ∧
    (0 < 3 → M !! 0 = Some (replicate 2 0%Z)).
Proof.
  split; [sample_dense|]. split; [sample_dimension|].
  apply (embedding_matrix_rows 0%Z 3 2 sample_word_index sample_embeddings_index);
    [sample_dense|sample_dimension].
Defined.

Lemma embedding_matrix_shape_witness :
  dense_vocab sample_word_index ∧
  length (embedding_matrix 0%Z 3 2 sample_word_index sample_embeddings_index).1 = 3 ∧
  Forall (λ row, length row = 2)
    (embedding_matrix 0%Z 3 2 sample_word_index sample_embeddings_index).1.
Proof.
  split; [sample_dense|].
  apply (embedding_matrix_shape 0%Z 3 2 sample_word_index sample_embeddings_index).
  sample_dense.
Defined.

Lemma run_cell_pure_witness :
  cell_inputs sample_heap sample_names sample_word_index
    (<["the" := 2]> (<["sat" := 3]> ∅)) ∧
  ∃ ns1 h1 addr1,
    run_cell 0%Z 3 2 sample_names sample_heap = Some (ns1, h1, None) ∧
    n_embedding_matrix ns1 = Some addr1 ∧
    h1 !! addr1 = Some (Matrix [[0; 0]; [1; 2]; [0; 0]]%Z) ∧
    (∀ a, a ∈ dom sample_heap → h1 !! a = sample_heap !! a).
Proof.
  assert (cell_inputs sample_heap sample_names sample_word_index
            (<["the" := 2]> (<["sat" := 3]> ∅))) as Hin.
  { split; [reflexivity|]. split; [reflexivity|]. intros word a Hword.
    apply lookup_insert_Some in Hword as [[_ <-]|[_ Hword]]; [by eexists|].
    apply lookup_insert_Some in Hword as [[_ <-]|[_ Hword]]; [by eexists|].
    by rewrite lookup_empty in Hword. }
  split; [exact Hin|].
  destruct (run_cell_pure 0%Z 3 2 sample_names sample_heap sample_word_index _ Hin)
    as (ns1 & h1 & addr1 & Hrun & Hm1 & _ & Hres & Hsame & _).
  assert (embedding_matrix 0%Z 3 2 sample_word_index
            (contents sample_heap (<["the" := 2]> (<["sat" := 3]> ∅)))
          = ([[0; 0]; [1; 2]; [0; 0]]%Z, None)) as Heq
    by (vm_compute; reflexivity).
  rewrite Heq in Hrun, Hres.
  exists ns1, h1, addr1. split; [exact Hrun|]. split; [exact Hm1|].
  split; [exact Hres|exact Hsame].
Defined.

Lemma fill_writes_in_bounds_witness :
  dense_vocab sample_word_index ∧
  (embedding_matrix 0%Z 3 2 sample_word_index sample_embeddings_index).2
    ≠ Some IndexError.
Proof.
  split; [sample_dense|].
  apply (fill_writes_in_bounds 0%Z 3 2 sample_word_index sample_embeddings_index).
  sample_dense.
Defined.

(** The sample matrix, row by row: "the" is found, "cat" is not, and "sat"
    has index 3 = N and is skipped. *)
Example sample_embedding_matrix :
  embedding_matrix 0%Z 3 2 sample_word_index sample_embeddings_index =
  ([[0; 0]; [1; 2]; [0; 0]]%Z, None).
Proof. vm_compute. reflexivity. Qed.

(** ** The statements on the sample data *)

Example sample_load_corpus :
  load_corpus sample_root =
  (Corpus ["no header"; double_newline +:+ "Orbit"]
          (<["alt.atheism" := 0]> (<["sci.space" := 1]> ∅))
          [0; 1],
   None).
Proof. vm_compute. reflexivity. Qed.

Example sample_word_index_built :
  tk_word_index sample_tokenizer
  = [("the", 1); ("cat", 2); ("sat", 3); ("on", 4); ("mat", 5)].
Proof. vm_compute. reflexivity. Qed.

Example sample_encode_long :
  encode split sample_tokenizer 5 "the cat sat on the mat the end" = [1; 2; 3; 1; 1].
Proof. vm_compute. reflexivity. Qed.

Example sample_encode_short :
  encode split sample_tokenizer 5 "the cat" = [0; 0; 0; 1; 2].
Proof. vm_compute. reflexivity. Qed.

Lemma load_corpus_labels_witness :
  (∀ name, isdir single_label_root name ↔ name = "talk.misc") ∧
  labels_index (load_corpus single_label_root).1 = {["talk.misc" := 0]}.
Proof.
  assert (∀ name, isdir single_label_root name ↔ name = "talk.misc") as Honly.
  { intros name. unfold isdir, single_label_root.
    destruct (decide (name = "talk.misc")) as [->|Hne].
    - rewrite lookup_singleton_eq. done.
    - rewrite lookup_singleton_ne by done. done. }
  split; [exact Honly|].
  destruct (load_corpus_labels single_label_root)
    as (visited & _ & _ & _ & _ & _ & _ & Hone & _).
  exact (Hone "talk.misc" Honly).
Defined.

Lemma encode_length_and_range_witness :
  0 < tk_num_words sample_tokenizer ∧
  length (encode split sample_tokenizer 5 "the cat sat on the mat") = 5 ∧
  Forall (λ i, 0 ≤ i < tk_num_words sample_tokenizer)
    (encode split sample_tokenizer 5 "the cat sat on the mat").
Proof.
  assert (0 < tk_num_words sample_tokenizer) as HN by (vm_compute; lia).
  split; [exact HN|].
  destruct (encode_length_and_range split sample_tokenizer 5 "the cat sat on the mat")
    as (Hlen & Hrange & _ & _).
  split; [exact Hlen|exact (Hrange HN)].
Defined.

Lemma pad_sequence_policy_witness :
  (length [7; 8; 9] < 5 ∧ pad_sequence 5 [7; 8; 9] = [0; 0; 7; 8; 9]) ∧
  (2 < length [7; 8; 9] ∧ pad_sequence 2 [7; 8; 9] = [8; 9]).
Proof.
  split.
  - split; [simpl; lia|].
    apply (pad_sequence_policy 5 [7; 8; 9]). simpl; lia.
  - split; [simpl; lia|].
    apply (pad_sequence_policy 2 [7; 8; 9]). simpl; lia.
Defined.

Lemma word_index_dense_by_frequency_witness :
  (tk_word_index sample_tokenizer).*2
    = seq 1 (length (tk_word_index sample_tokenizer)) ∧
  dense_vocab (tk_word_index sample_tokenizer).
Proof.
  destruct (word_index_dense_by_frequency split (MkTokenizer 4 []) sample_texts)
    as (Hseq & _ & Hdense & _).
  split; [exact Hseq|exact Hdense].
Defined.

(** * Further properties of the cells *)

(** ** Embedding matrix builder *)

Section EmbeddingMatrixMore.
Context {coef : Type} (zero : coef).
Implicit Types (m : list (list coef)) (v : list coef).
Implicit Types (items wi : list (string * nat)) (emb : gmap string (list coef)).

Lemma fill_no_write N emb items m :
  (∀ item, item ∈ items → guarded_write N emb item = None) →
  fill N emb items m = (m, None).
Proof.
  induction items as [|item rest IH]; intros Hnone; [done|].
  cbn [fill]. rewrite (Hnone item) by (by left).
  apply IH. intros item' Hin. apply Hnone. by right.
Qed.

(** X1.  When no vocabulary word below the budget is in the embedding index
    (in particular when the index is empty), the builder returns the zero
    matrix and raises nothing, whatever the vocabulary looks like. *)
Theorem embedding_matrix_all_zero N D wi emb :
  (∀ word i, (word, i) ∈ wi → i < N → emb !! word = None) →
  embedding_matrix zero N D wi emb = (zeros zero (num_words N wi) D, None).
Proof.
  intros Hnone. unfold embedding_matrix. apply fill_no_write.
  intros [word i] Hin. apply guarded_write_None.
  destruct (decide (N ≤ i)); [by left|right]. apply (Hnone word i); [done|lia].
Qed.

Lemma dense_vocab_perm wi wi' : dense_vocab wi → wi' ≡ₚ wi → dense_vocab wi'.
Proof. intros [Hnd Hseq] Hperm. split; by rewrite Hperm. Qed.

(** X2.  The matrix does not depend on the order in which the dict hands out
    its items: two vocabularies with the same items give the same result. *)
Theorem embedding_matrix_order_independent N D wi wi' emb :
  dense_vocab wi → dimension D emb → wi' ≡ₚ wi →
  embedding_matrix zero N D wi' emb = embedding_matrix zero N D wi emb.
Proof.
  intros Hwi Hdim Hperm.
  pose proof (dense_vocab_perm _ _ Hwi Hperm) as Hwi'.
  assert (num_words N wi' = num_words N wi) as Hnw.
  { unfold num_words. by rewrite Hperm. }
  unfold embedding_matrix. rewrite Hnw.
  destruct (zeros_shape zero (num_words N wi) D) as [Hlen HD].
  assert (∀ items, dense_vocab items → length items = length wi →
            ∀ word i, (word, i) ∈ items → i < N →
              i < length (zeros zero (num_words N wi) D)) as Hbound.
  { intros items Hitems Hl word i Hin HiN. rewrite Hlen. unfold num_words.
    pose proof (dense_vocab_bounds _ _ _ Hitems Hin). lia. }
  destruct (fill_spec N D emb wi _ Hdim HD (dense_vocab_NoDup _ Hwi))
    as (M & HM & Hrows & Hrest); [by apply Hbound|].
  destruct (fill_spec N D emb wi' _ Hdim HD (dense_vocab_NoDup _ Hwi'))
    as (M' & HM' & Hrows' & Hrest'); [apply Hbound; [done|by rewrite Hperm]|].
  rewrite HM, HM'. f_equal. apply list_eq. intros j.
  destruct (decide (j ∈ wi.*2)) as [Hj|Hj].
  - apply list_elem_of_fmap in Hj as ([word i] & -> & Hin). simpl.
    destruct (decide (i < N)) as [HiN|HiN].
    + rewrite (Hrows word i Hin HiN). apply Hrows'; [by rewrite Hperm|done].
    + pose proof (fill_shape N emb wi _ D HD) as [Hl _].
      pose proof (fill_shape N emb wi' _ D HD) as [Hl' _].
      rewrite HM in Hl. rewrite HM' in Hl'. simpl in Hl, Hl'.
      rewrite Hlen in Hl, Hl'. unfold num_words in Hl, Hl'.
      rewrite !lookup_ge_None_2; [done|lia..].
  - rewrite (Hrest j Hj). apply Hrest'. by rewrite Hperm.
Qed.

(** The loop over any items, with vectors of the row length: it ends in
    IndexError exactly when an item that passes the guards names a row that
    does not exist, and raises nothing otherwise. *)
Lemma fill_IndexError N D emb items m :
  dimension D emb → Forall (λ r, length r = D) m →
  ((fill N emb items m).2 = Some IndexError ↔
     ∃ item i v, item ∈ items ∧ guarded_write N emb item = Some (i, v) ∧
       length m ≤ i) ∧
  ((fill N emb items m).2 = None ∨ (fill N emb items m).2 = Some IndexError).
Proof.
  intros Hdim. revert m.
  induction items as [|[word i] rest IH]; intros m HD; cbn [fill].
  { split; [|by left]. split; [done|].
    intros (item & ? & ? & Hin & _). by apply elem_of_nil in Hin. }
  destruct (guarded_write N emb (word, i)) as [[j v]|] eqn:Hg.
  - apply guarded_write_Some in Hg as Hg'. destruct Hg' as (-> & HiN & Hv).
    destruct (decide (i < length m)) as [Hlt|Hge].
    + rewrite (set_row_ok m i v D HD Hlt (Hdim _ _ Hv)).
      destruct (IH (<[i:=v]> m)) as [Hiff Hor].
      { apply Forall_insert; [done|]. exact (Hdim _ _ Hv). }
      split; [|done]. rewrite Hiff, length_insert. split.
      * intros (item & i' & v' & Hin & Hw & Hle).
        exists item, i', v'. split_and!; [by right|done..].
      * intros (item & i' & v' & Hin & Hw & Hle).
        apply elem_of_cons in Hin as [->|Hin].
        -- rewrite Hg in Hw. simplify_eq. lia.
        -- by exists item, i', v'.
    + unfold set_row. rewrite lookup_ge_None_2 by lia. simpl.
      split; [|by right]. split; [|done]. intros _.
      exists (word, i), i, v. split_and!; [by left|done|lia].
  - destruct (IH m HD) as [Hiff Hor]. split; [|done]. rewrite Hiff. split.
    + intros (item & i' & v' & Hin & Hw & Hle).
      exists item, i', v'. split_and!; [by right|done..].
    + intros (item & i' & v' & Hin & Hw & Hle).
      apply elem_of_cons in Hin as [->|Hin]; [congruence|].
      by exists item, i', v'.
Qed.

(** X3.  The guard of the loop compares with [MAX_NUM_WORDS], not with the
    number of rows: for any vocabulary, and vectors of dimension [D], the
    builder ends in IndexError exactly when some word of the embedding index
    has an index below [MAX_NUM_WORDS] and above the vocabulary size, and
    raises nothing otherwise. *)
Theorem embedding_matrix_IndexError N D wi emb :
  dimension D emb →
  ((embedding_matrix zero N D wi emb).2 = Some IndexError ↔
     ∃ word i, (word, i) ∈ wi ∧ length wi < i < N ∧ is_Some (emb !! word)) ∧
  ((embedding_matrix zero N D wi emb).2 = None ∨
   (embedding_matrix zero N D wi emb).2 = Some IndexError).
Proof.
  intros Hdim. unfold embedding_matrix.
  destruct (zeros_shape zero (num_words N wi) D) as [Hlen HD].
  destruct (fill_IndexError N D emb wi _ Hdim HD) as [Hiff Hor].
  split; [|done]. rewrite Hiff, Hlen. unfold num_words. split.
  - intros ([word i] & j & v & Hin & Hw & Hle).
    apply guarded_write_Some in Hw as (-> & HiN & Hv).
    exists word, i. split_and!; [done|lia|lia|by eexists].
  - intros (word & i & Hin & [Hgt HiN] & [v Hv]).
    exists (word, i), i, v. split_and!; [done| |lia].
    by apply guarded_write_Some.
Qed.
End EmbeddingMatrixMore.

(** ** Pre-trained embedding index *)

Lemma append_empty_r (s : string) : s +:+ EmptyString = s.
Proof. induction s as [|c s IH]; [done|]. by rewrite append_String, IH. Qed.

Lemma append_assoc (a b c : string) : (a +:+ b) +:+ c = a +:+ (b +:+ c).
Proof. induction a as [|x a IH]; [done|]. by rewrite !append_String, IH. Qed.

Lemma no_space_app a b : no_space (a +:+ b) = no_space a && no_space b.
Proof.
  induction a as [|c a IH]; [done|].
  rewrite append_String. cbn [no_space]. rewrite IH. by destruct (is_space c).
Qed.

Lemma split_from_tokens line word :
  no_space word →
  Forall (λ tok, tok ≠ EmptyString ∧ no_space tok) (split_from line word).
Proof.
  revert word. induction line as [|c line IH]; intros word Hword; cbn [split_from].
  - destruct word; [constructor|]. by repeat constructor.
  - destruct (is_space c) eqn:Hc.
    + destruct word; [by apply IH|].
      constructor; [done|]. by apply IH.
    + apply IH. rewrite no_space_app. cbn [no_space]. rewrite Hc.
      destruct (no_space word); done.
Qed.

(** [split] never returns an empty token nor a token with white space. *)
Lemma split_tokens line :
  Forall (λ tok, tok ≠ EmptyString ∧ no_space tok) (split line).
Proof. by apply split_from_tokens. Qed.

Lemma split_from_token tok c rest word :
  no_space tok → is_space c = true → word +:+ tok ≠ EmptyString →
  split_from (tok +:+ String c rest) word
    = (word +:+ tok) :: split_from rest EmptyString.
Proof.
  revert word. induction tok as [|a tok IH]; intros word Htok Hc Hne.
  - rewrite append_empty_r in *.
    change (EmptyString +:+ String c rest) with (String c rest).
    cbn [split_from]. rewrite Hc. by destruct word.
  - cbn [no_space] in Htok. destruct (is_space a) eqn:Ha; [done|].
    rewrite append_String. cbn [split_from]. rewrite Ha.
    rewrite IH; [|done..|].
    + by rewrite append_assoc.
    + rewrite append_assoc. by destruct word.
Qed.

(** Splitting undoes joining: a line written as clean tokens separated by
    single spaces and ended by a newline is split into those tokens. *)
Lemma split_join tokens :
  Forall (λ tok, tok ≠ EmptyString ∧ no_space tok) tokens →
  split (join tokens +:+ String newline EmptyString) = tokens.
Proof.
  unfold split. induction 1 as [|tok rest [Hne Hns] Hrest IH]; [done|].
  destruct rest as [|tok' rest].
  - cbn [join]. rewrite split_from_token; [done..|by destruct tok].
  - change (join (tok :: tok' :: rest))
      with (tok +:+ String (Ascii.ascii_of_nat 32) (join (tok' :: rest))).
    rewrite append_assoc, append_String.
    rewrite split_from_token; [|done..|by destruct tok].
    by rewrite IH.
Qed.

Lemma split_from_all_space line :
  all_space line → split_from line EmptyString = [].
Proof.
  induction line as [|c line IH]; [done|]. cbn [all_space split_from].
  destruct (is_space c); [|done]. apply IH.
Qed.

Section EmbeddingsIndexMore.
Context {coef : Type} (zero : coef) (float32 : string → option coef).
Implicit Types (emb : gmap string (list coef)) (toks : list string).
Implicit Types (entries : list (string * list coef)).

Lemma parse_lines_words lines emb :
  map_Forall (λ word _, word ≠ EmptyString ∧ no_space word) emb →
  map_Forall (λ word _, word ≠ EmptyString ∧ no_space word)
    (parse_lines float32 lines emb).1.
Proof.
  revert emb. induction lines as [|line lines IH]; intros emb Hemb; [done|].
  cbn [parse_lines]. unfold parse_line.
  pose proof (split_tokens line) as Htoks.
  destruct (split line) as [|word toks]; [done|].
  destruct (asarray float32 toks) as [e|coefs]; [done|].
  apply IH, map_Forall_insert_2; [|done]. by apply Forall_cons in Htoks as [? _].
Qed.

(** X4.  Every key of the embedding index is a non-empty word without white
    space in it, whether the parser finishes or stops on an exception. *)
Theorem build_embeddings_index_words lines :
  map_Forall (λ word _, word ≠ EmptyString ∧ no_space word)
    (build_embeddings_index float32 lines).1.
Proof. apply parse_lines_words, map_Forall_empty. Qed.

(** X5.  The parser reads back a well-formed line: a line written as a word
    and coefficient literals, all non-empty and free of white space,
    separated by single spaces and ended by a newline, is stored under that
    very word with exactly the converted coefficients, in order. *)
Theorem parse_line_join word toks coefs :
  Forall (λ tok, tok ≠ EmptyString ∧ no_space tok) (word :: toks) →
  Forall2 (λ tok c, float32 tok = Some c) toks coefs →
  parse_line float32 (join (word :: toks) +:+ String newline EmptyString)
    = inr (word, coefs) ∧
  build_embeddings_index float32
    [join (word :: toks) +:+ String newline EmptyString]
    = ({[word := coefs]}, None).
Proof.
  intros Hclean Hconv.
  assert (parse_line float32 (join (word :: toks) +:+ String newline EmptyString)
          = inr (word, coefs)) as Hline.
  { unfold parse_line. rewrite (split_join _ Hclean).
    by rewrite (asarray_ok _ _ _ Hconv). }
  split; [done|]. unfold build_embeddings_index. cbn [parse_lines].
  by rewrite Hline.
Qed.

(** X6.  A line of white space only (a blank line) stops the parser with
    IndexError, raised by [values[0]]; the entries of the lines before it are
    kept. *)
Theorem build_embeddings_index_blank_line before line after emb :
  build_embeddings_index float32 before = (emb, None) →
  all_space line →
  build_embeddings_index float32 (before ++ line :: after)
    = (emb, Some IndexError).
Proof.
  unfold build_embeddings_index. intros Hbefore Hblank.
  rewrite (parse_lines_app _ _ _ _ _ Hbefore). cbn [parse_lines].
  unfold parse_line, split. by rewrite split_from_all_space.
Qed.

Lemma parse_lines_fold lines entries emb :
  Forall2 (λ line e, parse_line float32 line = inr e) lines entries →
  parse_lines float32 lines emb
    = (foldl (λ m e, <[e.1 := e.2]> m) emb entries, None).
Proof.
  intros Hall. revert emb.
  induction Hall as [|line [word coefs] lines entries Hline _ IH]; intros emb.
  - done.
  - cbn [parse_lines foldl]. rewrite Hline. apply IH.
Qed.

Lemma foldl_insert_lookup_notin entries emb word :
  word ∉ entries.*1 →
  foldl (λ m e, <[e.1 := e.2]> m) emb entries !! word = emb !! word.
Proof.
  revert emb. induction entries as [|[w c] entries IH]; intros emb Hnin; [done|].
  rewrite fmap_cons in Hnin. apply not_elem_of_cons in Hnin as [Hne Hnin].
  cbn [foldl]. rewrite IH by done. by apply lookup_insert_ne.
Qed.

Lemma foldl_insert_size entries emb :
  size (foldl (λ m e, <[e.1 := e.2]> m) emb entries) ≤ size emb + length entries.
Proof.
  revert emb. induction entries as [|[w c] entries IH]; intros emb; simpl; [lia|].
  etrans; [apply IH|]. rewrite map_size_insert.
  destruct (emb !! w); simpl; lia.
Qed.

(** X7.  When every line parses, the parser raises nothing and a later line
    replaces an earlier one with the same word: each word maps to the
    coefficients of its last line, words on no line are absent, and there
    are at most as many entries as lines. *)
Theorem build_embeddings_index_last_wins lines entries :
  Forall2 (λ line e, parse_line float32 line = inr e) lines entries →
  (build_embeddings_index float32 lines).2 = None ∧
  (∀ pre word coefs post, entries = pre ++ (word, coefs) :: post →
     word ∉ post.*1 →
     (build_embeddings_index float32 lines).1 !! word = Some coefs) ∧
  (∀ word, word ∉ entries.*1 →
     (build_embeddings_index float32 lines).1 !! word = None) ∧
  size (build_embeddings_index float32 lines).1 ≤ length lines.
Proof.
  intros Hall. unfold build_embeddings_index.
  rewrite (parse_lines_fold _ _ _ Hall). cbn [fst snd]. split_and!.
  - done.
  - intros pre word coefs post -> Hnin.
    rewrite foldl_app. cbn [foldl].
    rewrite foldl_insert_lookup_notin by done. apply lookup_insert_eq.
  - intros word Hnin. by rewrite foldl_insert_lookup_notin.
  - etrans; [apply foldl_insert_size|].
    rewrite map_size_empty. apply Forall2_length in Hall. lia.
Qed.

Lemma asarray_length toks (coefs : list coef) :
  asarray float32 toks = inr coefs → length coefs = length toks.
Proof.
  revert coefs. induction toks as [|tok toks IH]; intros coefs; cbn [asarray].
  - by intros [= <-].
  - destruct (float32 tok); [|done].
    destruct (asarray float32 toks) as [e|cs]; [done|].
    intros [= <-]. simpl. f_equal. by apply IH.
Qed.

Lemma parse_lines_dimension D lines emb0 emb :
  parse_lines float32 lines emb0 = (emb, None) →
  (∀ line word toks, line ∈ lines → split line = word :: toks → length toks = D) →
  dimension D emb0 → dimension D emb.
Proof.
  revert emb0. induction lines as [|line lines IH]; intros emb0; cbn [parse_lines].
  { by intros [= ->]. }
  unfold parse_line. destruct (split line) as [|word toks] eqn:Hsplit; [done|].
  destruct (asarray float32 toks) as [e|coefs] eqn:Harr; [done|].
  intros Hparse Hlines Hdim. apply (IH _ Hparse).
  - intros l w t Hin. apply Hlines. by right.
  - apply map_Forall_insert_2; [|done].
    rewrite (asarray_length _ _ Harr). apply (Hlines line word); [by left|done].
Qed.

(** X8.  When the file is read without error and every line has [D]
    coefficient tokens, every vector of the index has dimension [D], and the
    matrix builder, run on this index and a vocabulary with indices 1..len,
    raises nothing and returns [min(N, len + 1)] rows of length [D]. *)
Theorem build_embeddings_index_dimension D lines emb :
  build_embeddings_index float32 lines = (emb, None) →
  (∀ line word toks, line ∈ lines → split line = word :: toks → length toks = D) →
  dimension D emb ∧
  ∀ N wi, dense_vocab wi →
    (embedding_matrix zero N D wi emb).2 = None ∧
    length (embedding_matrix zero N D wi emb).1 = N `min` (length wi + 1) ∧
    Forall (λ row, length row = D) (embedding_matrix zero N D wi emb).1.
Proof.
  intros Hparse Hlines.
  assert (dimension D emb) as Hdim.
  { apply (parse_lines_dimension D lines ∅ emb Hparse Hlines).
    apply map_Forall_empty. }
  split; [done|]. intros N wi Hwi.
  destruct (zeros_shape zero (num_words N wi) D) as [Hlen HD].
  pose proof (fill_shape N emb wi _ D HD) as [Hl HDM].
  fold (embedding_matrix zero N D wi emb) in Hl, HDM. rewrite Hlen in Hl.
  split_and!; [|done..].
  destruct (fill_spec N D emb wi _ Hdim HD (dense_vocab_NoDup _ Hwi))
    as (M & HM & _).
  - intros word i Hin HiN. rewrite Hlen. unfold num_words.
    pose proof (dense_vocab_bounds _ _ _ Hwi Hin). lia.
  - unfold embedding_matrix. by rewrite HM.
Qed.
End EmbeddingsIndexMore.

(** ** Corpus loader *)

Lemma length_append (a b : string) :
  String.length (a +:+ b) = String.length a + String.length b.
Proof.
  induction a as [|c a IH]; [done|]. rewrite append_String. simpl. by rewrite IH.
Qed.

Lemma occurs_at_length sub t k :
  occurs_at sub t k → k + String.length sub ≤ String.length t.
Proof. intros (pre & post & -> & <-). rewrite !length_append. lia. Qed.

(** A text that starts with the blank line is left as it is. *)
Lemma skip_header_at_start t :
  occurs_at double_newline t 0 → skip_header t = t.
Proof.
  intros Hocc. unfold skip_header, find.
  destruct (find_from_spec double_newline t 0) as [[-> _]|(k & -> & Hk)]; [done|].
  assert (k = 0) as ->.
  { destruct Hk as [_ Hfirst]. destruct k as [|k]; [done|].
    destruct (Hfirst 0); [lia|done]. }
  done.
Qed.

(** What [skip_header] does, by the position of the first blank line. *)
Lemma skip_header_cases t :
  skip_header t = t ∨
  ∃ header body, header ≠ EmptyString ∧ t = header +:+ double_newline +:+ body ∧
    first_occurrence double_newline t (String.length header) ∧
    skip_header t = double_newline +:+ body.
Proof.
  unfold skip_header, find.
  destruct (find_from_spec double_newline t 0) as [[-> _]|(k & -> & Hk)];
    [by left|].
  destruct k as [|k]; [by left|]. right.
  destruct Hk as [(header & body & Ht & Hlen) Hfirst].
  exists header, body. split_and!.
  - intros ->. done.
  - done.
  - rewrite Hlen. split; [by exists header, body|done].
  - destruct (Z.ltb_spec 0 (Z.of_nat (0 + S k))) as [_|?]; [|lia].
    unfold slice_from.
    destruct (Z.leb_spec 0 (Z.of_nat (0 + S k))) as [_|?]; [|lia].
    rewrite Nat2Z.id, Nat.add_0_l, <- Hlen, Ht. apply drop_chars_app.
Qed.

(** X9.  Header stripping is idempotent, and a text that begins with the
    blank line is returned unchanged: what was stripped once is not stripped
    again. *)
Theorem skip_header_idempotent t :
  skip_header (skip_header t) = skip_header t ∧
  ∀ body, skip_header (double_newline +:+ body) = double_newline +:+ body.
Proof.
  assert (∀ body, skip_header (double_newline +:+ body) = double_newline +:+ body)
    as Hstart.
  { intros body. apply skip_header_at_start. by exists EmptyString, body. }
  split; [|done].
  destruct (skip_header_cases t) as [H|(header & body & _ & _ & _ & ->)].
  - by rewrite !H.
  - apply Hstart.
Qed.

(** X10.  Only a prefix without a blank line in it is ever dropped: the text
    is the dropped header followed by what is kept, and when something is
    dropped the kept part starts with the blank line. *)
Theorem skip_header_keeps_body t :
  ∃ header, t = header +:+ skip_header t ∧
    (∀ k, ¬ occurs_at double_newline header k) ∧
    (header = EmptyString ∨ String.prefix double_newline (skip_header t) = true).
Proof.
  destruct (skip_header_cases t) as [H|(header & body & Hne & Ht & Hfirst & ->)].
  - exists EmptyString. split_and!; [by rewrite H| |by left].
    intros k Hocc%occurs_at_length. simpl in Hocc. lia.
  - exists header. split_and!; [done| |right].
    + intros k Hocc. pose proof (occurs_at_length _ _ _ Hocc) as Hlen.
      destruct Hfirst as [_ Hfirst]. apply (Hfirst k); [simpl in Hlen; lia|].
      destruct Hocc as (pre & post & -> & <-).
      exists pre, (post +:+ double_newline +:+ body). split; [|done].
      by rewrite Ht, !append_assoc.
    + apply string_prefix_app. by exists body.
Qed.

(** X11.  Every label id in [labels] is below [len(labels_index)], whether
    the loader finishes or stops on an exception: the ids are valid class
    numbers for an output of [len(labels_index)] classes. *)
Theorem load_corpus_labels_valid root :
  Forall (λ id, id < size (labels_index (load_corpus root).1))
    (labels (load_corpus root).1).
Proof.
  destruct (load_dirs_spec root (sorted (listdir root)) [] (Corpus [] ∅ []))
    as (visited & _ & _ & _ & Hinv & _).
  { split_and!; simpl; try done; apply NoDup_nil_2. }
  { apply sorted_listdir_NoDup. }
  fold (load_corpus root) in Hinv. simpl in Hinv.
  destruct Hinv as (_ & _ & Hsize & Hlen & Hsrc).
  apply Forall_forall. intros id [k Hk]%list_elem_of_lookup.
  destruct (lookup_lt_is_Some_2 (texts (load_corpus root).1) k) as [t Ht].
  { rewrite Hlen. by eapply lookup_lt_Some. }
  destruct (Hsrc k t Ht) as (id' & name & Hid & Hv & _).
  rewrite Hsize. simplify_eq. by eapply lookup_lt_Some.
Qed.

Lemma load_files_exact entries label_id fnames c :
  (∀ fname, fname ∈ fnames → isdigit fname →
     ∃ t, entries !! fname = Some (File t)) →
  load_files entries label_id fnames c =
  (Corpus (texts c ++ samples entries fnames) (labels_index c)
          (labels c ++ replicate (length (samples entries fnames)) label_id),
   None).
Proof.
  revert c. induction fnames as [|fname rest IH]; intros c Hok.
  { destruct c. cbn. by rewrite !app_nil_r. }
  cbn [load_files samples omap list_omap].
  fold (samples entries rest).
  destruct (isdigit fname) eqn:Hdig.
  - destruct (Hok fname) as [t Ht]; [by left|by rewrite Hdig|].
    rewrite Ht. rewrite IH by (intros f Hf; apply Hok; by right).
    cbn [texts labels labels_index length replicate].
    by rewrite <- !app_assoc.
  - apply IH. intros f Hf. apply Hok. by right.
Qed.

Lemma load_dirs_exact root names c :
  regular_samples root → NoDup names →
  (∀ name, name ∈ names → labels_index c !! name = None) →
  (load_dirs root names c).2 = None ∧
  texts (load_dirs root names c).1
    = texts c ++ concat (dir_samples <$> dirs_of root names) ∧
  labels (load_dirs root names c).1
    = labels c ++
      concat (imap (λ j entries, replicate (length (dir_samples entries))
                                   (size (labels_index c) + j))
                   (dirs_of root names)).
Proof.
  intros Hreg. revert c.
  induction names as [|name rest IH]; intros c Hnd Hfresh.
  { cbn. by rewrite !app_nil_r. }
  apply NoDup_cons in Hnd as [Hnin Hnd].
  cbn [load_dirs dirs_of omap list_omap]. fold (dirs_of root rest).
  destruct (root !! name) as [[content|entries]|] eqn:Hroot.
  - apply IH; [done|]. intros n Hn. apply Hfresh. by right.
  - rewrite load_files_exact.
    2:{ intros fname Hin Hdig. apply (Hreg name entries fname Hroot Hdig).
        rewrite sorted_perm in Hin. by apply elem_of_listdir. }
    fold (dir_samples entries).
    set (c2 := Corpus _ _ _).
    destruct (IH c2 Hnd) as (Hnone & Htexts & Hlabels).
    { intros n Hn. subst c2. cbn [labels_index].
      rewrite lookup_insert_ne by (intros ->; done).
      apply Hfresh. by right. }
    split_and!; [done|..].
    + rewrite Htexts. subst c2. cbn [texts]. rewrite fmap_cons. cbn [concat].
      by rewrite <- !app_assoc.
    + rewrite Hlabels. subst c2. cbn [labels labels_index].
      rewrite map_size_insert_None by (apply Hfresh; by left).
      rewrite imap_cons. cbn [concat]. rewrite Nat.add_0_r, <- !app_assoc.
      do 3 f_equal. apply imap_ext. intros j entries' _. simpl. f_equal. lia.
  - apply IH; [done|]. intros n Hn. apply Hfresh. by right.
Qed.

Lemma grouped_labels_sorted {A} (n : A → nat) (l : list A) k :
  StronglySorted le (concat (imap (λ j x, replicate (n x) (k + j)) l)) ∧
  Forall (le k) (concat (imap (λ j x, replicate (n x) (k + j)) l)).
Proof.
  revert k. induction l as [|x l IH]; intros k; [split; constructor|].
  rewrite imap_cons. cbn [concat].
  rewrite (imap_ext _ (λ j x, replicate (n x) (S k + j)))
    by (intros; simpl; f_equal; lia).
  destruct (IH (S k)) as [Hs Hall].
  assert (Forall (eq (k + 0)) (replicate (n x) (k + 0))) as Heq.
  { apply Forall_replicate. done. }
  split.
  - apply StronglySorted_app. split_and!; [|clear -Heq|done].
    + intros a b Ha Hb. eapply Forall_forall in Heq; [|done].
      eapply Forall_forall in Hall; [|done]. lia.
    + induction (n x) as [|m IHm]; simpl; constructor; [apply IHm|].
      * by apply Forall_cons in Heq as [_ ?].
      * apply Forall_replicate. lia.
  - apply Forall_app. split.
    + eapply Forall_impl; [done|]. simpl. lia.
    + eapply Forall_impl; [done|]. simpl. lia.
Qed.

(** X12.  On a corpus whose digit-named entries are regular files the loader
    raises nothing; [texts] holds the samples directory by directory, the
    directories in lexicographic order and the files of each in
    lexicographic order of their names; [labels] repeats the position of the
    directory once per sample, so it is non-decreasing. *)
Theorem load_corpus_samples root :
  regular_samples root →
  let dirs := dirs_of root (sorted (listdir root)) in
  (load_corpus root).2 = None ∧
  texts (load_corpus root).1 = concat (dir_samples <$> dirs) ∧
  labels (load_corpus root).1
    = concat (imap (λ j entries, replicate (length (dir_samples entries)) j) dirs) ∧
  StronglySorted le (labels (load_corpus root).1).
Proof.
  intros Hreg dirs.
  destruct (load_dirs_exact root (sorted (listdir root)) (Corpus [] ∅ []) Hreg)
    as (Hnone & Htexts & Hlabels).
  { apply sorted_listdir_NoDup. }
  { intros name _. apply lookup_empty. }
  fold (load_corpus root) in Hnone, Htexts, Hlabels.
  cbn [texts labels labels_index] in Htexts, Hlabels.
  rewrite map_size_empty in Hlabels. simpl in Htexts, Hlabels.
  split_and!; [done..|].
  rewrite Hlabels. apply (grouped_labels_sorted (λ e, length (dir_samples e)) _ 0).
Qed.

Lemma load_files_finished entries label_id fnames c :
  (load_files entries label_id fnames c).2 = None →
  ∀ fname, fname ∈ fnames → isdigit fname →
    ∃ t, entries !! fname = Some (File t).
Proof.
  revert c. induction fnames as [|fname rest IH]; intros c; cbn [load_files].
  { intros _ fname Hin. by apply elem_of_nil in Hin. }
  destruct (isdigit fname) eqn:Hdig.
  - destruct (entries !! fname) as [[t|sub]|] eqn:Hent; [|done..].
    intros Hnone f [->|Hin]%elem_of_cons Hf; [by exists t|].
    by apply (IH _ Hnone).
  - intros Hnone f [->|Hin]%elem_of_cons Hf; [by rewrite Hdig in Hf|].
    by apply (IH _ Hnone).
Qed.

Lemma load_dirs_finished root names c :
  (load_dirs root names c).2 = None →
  ∀ name entries fname, name ∈ names → root !! name = Some (Dir entries) →
    fname ∈ sorted (listdir entries) → isdigit fname →
    ∃ t, entries !! fname = Some (File t).
Proof.
  revert c. induction names as [|name rest IH]; intros c; cbn [load_dirs].
  { intros _ name ?? Hin. by apply elem_of_nil in Hin. }
  destruct (root !! name) as [[content|entries]|] eqn:Hroot.
  - intros Hnone n es f [->|Hin]%elem_of_cons Hn; [congruence|].
    by apply (IH _ Hnone n).
  - set (c1 := Corpus _ _ _).
    pose proof (load_files_finished entries (size (labels_index c))
                  (sorted (listdir entries)) c1) as Hfiles.
    destruct (load_files entries _ _ c1) as [c2 [e|]] eqn:Hlf; [done|].
    intros Hnone n es f [->|Hin]%elem_of_cons Hn.
    + simplify_eq. by apply Hfiles.
    + by apply (IH _ Hnone n).
  - intros Hnone n es f [->|Hin]%elem_of_cons Hn; [congruence|].
    by apply (IH _ Hnone n).
Qed.

(** X16.  The loader runs to the end exactly on the corpora in which every
    digit-named entry of a label directory is a regular file: one such entry
    that is a directory makes [open] raise and stops the loader. *)
Theorem load_corpus_finishes_iff_regular root :
  (load_corpus root).2 = None ↔ regular_samples root.
Proof.
  split.
  - intros Hnone name entries fname Hroot Hdig Hsome.
    apply (load_dirs_finished root (sorted (listdir root)) (Corpus [] ∅ [])
             Hnone name entries fname); [|done| |done].
    + rewrite sorted_perm. apply elem_of_listdir. by eexists.
    + rewrite sorted_perm. by apply elem_of_listdir.
  - intros Hreg.
    destruct (load_dirs_exact root (sorted (listdir root)) (Corpus [] ∅ []) Hreg)
      as (Hnone & _); [apply sorted_listdir_NoDup| |done].
    intros name _. apply lookup_empty.
Qed.

(** ** Training and validation split *)

Lemma take_rows_inr {A} (a : list A) indices rows :
  take_rows a indices = inr rows ↔
  Forall2 (λ i r, a !! i = Some r) indices rows.
Proof.
  unfold take_rows. rewrite <- mapM_Some.
  destruct (mapM _ indices); split; intros H; by simplify_eq.
Qed.

Lemma omap_lookup_seq {A} (pre a : list A) :
  omap (λ i, (pre ++ a) !! i) (seq (length pre) (length a)) = a.
Proof.
  revert pre. induction a as [|x a IH]; intros pre; [done|].
  cbn [length seq omap list_omap]. rewrite list_lookup_middle by done.
  f_equal. specialize (IH (pre ++ [x])).
  rewrite <- app_assoc, length_app in IH. simpl in IH.
  by rewrite Nat.add_1_r in IH.
Qed.

Lemma Forall2_omap {A B} (f : A → option B) l k :
  Forall2 (λ x y, f x = Some y) l k → omap f l = k.
Proof.
  induction 1 as [|x y l k Hx _ IH]; [done|].
  simpl. rewrite Hx. simpl. f_equal. exact IH.
Qed.

(** Taking the rows of an array along a permutation of its indices works
    and gives a permutation of the array. *)
Lemma take_rows_perm {A} (a : list A) indices :
  indices ≡ₚ seq 0 (length a) →
  ∃ rows, take_rows a indices = inr rows ∧ rows ≡ₚ a.
Proof.
  intros Hperm.
  destruct (mapM_is_Some_2 (λ i, a !! i) indices) as [rows Hrows].
  { apply Forall_forall. intros i Hi. rewrite Hperm in Hi.
    apply elem_of_seq in Hi. apply lookup_lt_is_Some_2. lia. }
  exists rows. unfold take_rows. rewrite Hrows. split; [done|].
  apply mapM_Some, Forall2_omap in Hrows. rewrite <- Hrows, Hperm.
  pose proof (omap_lookup_seq [] a) as Hall. simpl in Hall. by rewrite Hall.
Qed.

Lemma take_rows_zip {A B} (a : list A) (b : list B) indices rows_a rows_b :
  take_rows a indices = inr rows_a → take_rows b indices = inr rows_b →
  take_rows (zip a b) indices = inr (zip rows_a rows_b).
Proof.
  rewrite !take_rows_inr. intros Ha. revert rows_b.
  induction Ha as [|i r indices rows_a Hr _ IH]; intros rows_b Hb.
  - apply Forall2_nil_inv_l in Hb as ->. constructor.
  - apply Forall2_cons_inv_l in Hb as (r' & rows_b' & Hr' & Hb & ->).
    constructor; [|by apply IH]. apply lookup_zip_Some. done.
Qed.

Lemma slices_zip {A B} (a : list A) (b : list B) stop :
  length a = length b →
  zip (slice_until a stop) (slice_until b stop) = slice_until (zip a b) stop ∧
  zip (slice_since a stop) (slice_since b stop) = slice_since (zip a b) stop.
Proof.
  intros Hlen. unfold slice_until, slice_since.
  rewrite length_zip, <- Hlen, Nat.min_id.
  destruct (0 <=? stop)%Z; by rewrite zip_with_take, zip_with_drop.
Qed.

Lemma slices_app {A} (a : list A) stop :
  slice_until a stop ++ slice_since a stop = a.
Proof. unfold slice_until, slice_since. destruct (0 <=? stop)%Z; apply take_drop. Qed.

(** X13.  With [indices] a permutation of [0..n-1] and as many labels as
    texts, the split raises nothing and loses, repeats or re-pairs no sample:
    the training pairs followed by the validation pairs are a permutation of
    the (row, label) pairs it was given, whatever the number of validation
    samples. *)
Theorem train_val_split_partition {A B} indices nvs (data : list A) (labels : list B) :
  length data = length labels → indices ≡ₚ seq 0 (length data) →
  ∃ s, train_val_split indices nvs data labels = inr s ∧
    length (x_train s) = length (y_train s) ∧
    length (x_val s) = length (y_val s) ∧
    zip (x_train s) (y_train s) ++ zip (x_val s) (y_val s) ≡ₚ zip data labels ∧
    x_train s ++ x_val s ≡ₚ data ∧ y_train s ++ y_val s ≡ₚ labels.
Proof.
  intros Hlen Hperm.
  destruct (take_rows_perm data indices Hperm) as (data' & Hd & Hpd).
  destruct (take_rows_perm labels indices) as (labels' & Hl & Hpl).
  { by rewrite <- Hlen. }
  assert (length data' = length labels') as Hlen'.
  { apply take_rows_inr, Forall2_length in Hd, Hl. congruence. }
  unfold train_val_split. rewrite Hd, Hl. eexists. split; [done|].
  cbn [x_train y_train x_val y_val].
  destruct (slices_zip data' labels' (- Z.of_nat nvs) Hlen') as [-> ->].
  rewrite !slices_app. split_and!; [| | |done..].
  - unfold slice_until. rewrite Hlen'. destruct (0 <=? _)%Z;
      by rewrite !length_take, Hlen'.
  - unfold slice_since. rewrite Hlen'. destruct (0 <=? _)%Z;
      by rewrite !length_drop, Hlen'.
  - pose proof (take_rows_zip _ _ _ _ _ Hd Hl) as Hz.
    destruct (take_rows_perm (zip data labels) indices) as (rows & Hrows & Hp).
    { by rewrite length_zip, <- Hlen, Nat.min_id. }
    rewrite Hz in Hrows. by simplify_eq.
Qed.

(** X14.  The sizes of the split.  With [v] validation samples out of [n],
    [0 < v <= n], the validation arrays hold the last [v] rows and the
    training arrays the first [n - v].  With [v = 0] the slices [[:-0]] and
    [[-0:]] make the training arrays empty and put every row into the
    validation arrays. *)
Theorem train_val_split_sizes {A B} indices nvs (data : list A) (labels : list B) s :
  train_val_split indices nvs data labels = inr s →
  length indices = length data →
  (0 < nvs ≤ length data →
     length (x_train s) = length data - nvs ∧ length (x_val s) = nvs ∧
     length (y_train s) = length data - nvs ∧ length (y_val s) = nvs) ∧
  (nvs = 0 →
     x_train s = [] ∧ y_train s = [] ∧
     take_rows data indices = inr (x_val s) ∧
     take_rows labels indices = inr (y_val s)).
Proof.
  unfold train_val_split. intros Hs Hn.
  destruct (take_rows data indices) as [e|data'] eqn:Hd; [done|].
  destruct (take_rows labels indices) as [e|labels'] eqn:Hl; [done|].
  simplify_eq. cbn [x_train y_train x_val y_val].
  apply take_rows_inr, Forall2_length in Hd, Hl.
  rewrite Hn in Hd, Hl. split.
  - intros [Hpos Hle]. unfold slice_until, slice_since.
    destruct (Z.leb_spec 0 (- Z.of_nat nvs)) as [?|_]; [lia|].
    rewrite !length_take, !length_drop, <- Hd, <- Hl. lia.
  - intros ->. done.
Qed.

(** ** Encoded data and the embedding matrix *)

Lemma get_elem_of (wi : list (string * nat)) w i : get wi w = Some i → (w, i) ∈ wi.
Proof.
  induction wi as [|[w' j] wi IH]; [done|]. cbn [get].
  case_decide; [intros [= ->]; subst; by left|]. intros Hg. right. by apply IH.
Qed.

(** X15.  With the tokenizer as modelled, a vocabulary with indices 1..len
    and [num_words >= 1], every entry of every row of [data] is below
    [min(num_words, len + 1)], the number of rows of the embedding matrix:
    the encoded texts only name rows that exist. *)
Theorem data_entries_are_rows {coef : Type} (zero : coef) tokenize
    (t : Tokenizer) texts D (emb : gmap string (list coef)) :
  dense_vocab (tk_word_index t) → 0 < tk_num_words t →
  Forall (Forall (λ i,
      i < num_words (tk_num_words t) (tk_word_index t) ∧
      is_Some ((embedding_matrix zero (tk_num_words t) D (tk_word_index t) emb).1
                 !! i)))
    (data tokenize t texts).
Proof.
  intros Hwi HN.
  assert (∀ i, i < num_words (tk_num_words t) (tk_word_index t) →
            is_Some ((embedding_matrix zero (tk_num_words t) D
                        (tk_word_index t) emb).1 !! i)) as Hrow.
  { intros i Hi. apply lookup_lt_is_Some_2.
    destruct (zeros_shape zero (num_words (tk_num_words t) (tk_word_index t)) D)
      as [Hlen HD].
    destruct (fill_shape (tk_num_words t) emb (tk_word_index t) _ D HD) as [Hl _].
    unfold embedding_matrix. by rewrite Hl, Hlen. }
  unfold data, pad_sequences, texts_to_sequences.
  rewrite <- list_fmap_compose. apply Forall_fmap, Forall_forall.
  intros text _. simpl. apply Forall_pad_sequence.
  - split; [unfold num_words; lia|]. apply Hrow. unfold num_words. lia.
  - apply Forall_forall. intros i Hi. unfold text_to_sequence in Hi.
    apply list_elem_of_omap in Hi as (w & _ & Hw).
    destruct (get (tk_word_index t) w) as [j|] eqn:Hget; [|done].
    case_decide; [done|]. simplify_eq.
    apply get_elem_of in Hget. pose proof (dense_vocab_bounds _ _ _ Hwi Hget).
    assert (i < num_words (tk_num_words t) (tk_word_index t)) as Hi
      by (unfold num_words; lia).
    split; [done|by apply Hrow].
Qed.

(** ** The further statements on the sample data *)

Lemma embedding_matrix_all_zero_witness :
  embedding_matrix 0%Z 3 2 sample_word_index (∅ : gmap string (list Z))
    = (zeros 0%Z (num_words 3 sample_word_index) 2, None).
Proof.
  apply (embedding_matrix_all_zero 0%Z 3 2 sample_word_index ∅).
  intros word i _ _. apply lookup_empty.
Defined.

Lemma embedding_matrix_order_independent_witness :
  embedding_matrix 0%Z 3 2 (reverse sample_word_index) sample_embeddings_index
    = embedding_matrix 0%Z 3 2 sample_word_index sample_embeddings_index.
Proof.
  apply (embedding_matrix_order_independent 0%Z 3 2 sample_word_index
           (reverse sample_word_index) sample_embeddings_index).
  - sample_dense.
  - sample_dimension.
  - apply reverse_Permutation.
Defined.

Lemma embedding_matrix_IndexError_witness :
  dimension 2 sample_embeddings_index ∧
  (embedding_matrix 0%Z 10 2 sparse_word_index sample_embeddings_index).2
    = Some IndexError.
Proof.
  split; [sample_dimension|].
  apply (embedding_matrix_IndexError 0%Z 10 2 sparse_word_index
           sample_embeddings_index); [sample_dimension|].
  exists "the", 5. split; [by left|]. split; [simpl; lia|]. by eexists.
Defined.

Lemma parse_line_join_witness :
  parse_line integer_literal (join ["the"; "1"; "2"] +:+ String newline EmptyString)
    = inr ("the", [1; 2]%Z).
Proof.
  apply (parse_line_join integer_literal "the" ["1"; "2"] [1; 2]%Z).
  - repeat constructor; done.
  - repeat constructor.
Defined.

Lemma build_embeddings_index_blank_line_witness :
  build_embeddings_index integer_literal
    (["the 1 2" +:+ String newline EmptyString]
       ++ String newline EmptyString :: ["sat 3 4" +:+ String newline EmptyString])
  = (<["the" := [1; 2]%Z]> ∅, Some IndexError).
Proof.
  apply (build_embeddings_index_blank_line integer_literal).
  - vm_compute. reflexivity.
  - vm_compute. exact I.
Defined.

Lemma build_embeddings_index_last_wins_witness :
  (build_embeddings_index integer_literal repeated_glove_lines).1 !! "the"
    = Some [3; 4]%Z.
Proof.
  destruct (build_embeddings_index_last_wins integer_literal repeated_glove_lines
              [("the", [1; 2]%Z); ("the", [3; 4]%Z)]) as (_ & Hlast & _).
  - repeat constructor; vm_compute; reflexivity.
  - apply (Hlast [("the", [1; 2]%Z)] "the" [3; 4]%Z []); [reflexivity|].
    apply not_elem_of_nil.
Defined.

Lemma build_embeddings_index_dimension_witness :
  dimension 2 (build_embeddings_index integer_literal regular_glove_lines).1.
Proof.
  apply (build_embeddings_index_dimension 0%Z integer_literal 2 regular_glove_lines
           (build_embeddings_index integer_literal regular_glove_lines).1).
  - vm_compute. reflexivity.
  - intros line word toks Hin Hsplit.
    apply elem_of_cons in Hin as [->|Hin].
    { vm_compute in Hsplit. by simplify_eq. }
    apply elem_of_cons in Hin as [->|Hin].
    { vm_compute in Hsplit. by simplify_eq. }
    by apply elem_of_nil in Hin.
Defined.

Lemma load_corpus_samples_witness :
  regular_samples single_label_root ∧
  (load_corpus single_label_root).2 = None ∧
  texts (load_corpus single_label_root).1
    = concat (dir_samples <$> dirs_of single_label_root
                                (sorted (listdir single_label_root))).
Proof.
  assert (regular_samples single_label_root) as Hreg.
  { intros name entries fname Hroot Hdig Hsome. unfold single_label_root in Hroot.
    apply lookup_singleton_Some in Hroot as [_ [= <-]].
    destruct (decide (fname = "12")) as [->|Hne].
    - exists "hello". apply lookup_insert_eq.
    - rewrite lookup_insert_ne, lookup_empty in Hsome by done.
      by destruct Hsome. }
  split; [exact Hreg|].
  destruct (load_corpus_samples single_label_root Hreg) as (Hnone & Htexts & _).
  split; [exact Hnone|exact Htexts].
Defined.

Lemma train_val_split_partition_witness :
  ∃ s, train_val_split [2; 0; 1] 1 [10; 20; 30] ["a"; "b"; "c"] = inr s ∧
    zip (x_train s) (y_train s) ++ zip (x_val s) (y_val s)
      ≡ₚ zip [10; 20; 30] ["a"; "b"; "c"].
Proof.
  destruct (train_val_split_partition [2; 0; 1] 1 [10; 20; 30] ["a"; "b"; "c"])
    as (s & Hs & _ & _ & Hperm & _).
  - reflexivity.
  - simpl. etrans; [apply Permutation_swap|]. apply perm_skip, Permutation_swap.
  - exists s. split; [exact Hs|exact Hperm].
Defined.

Lemma train_val_split_sizes_witness :
  train_val_split [2; 0; 1] 1 [10; 20; 30] ["a"; "b"; "c"]
    = inr (Partition [30; 10] ["c"; "a"] [20] ["b"]) ∧
  length [2; 0; 1] = length [10; 20; 30] ∧ 0 < 1 ≤ length [10; 20; 30] ∧
  length (x_train (Partition [30; 10] ["c"; "a"] [20] ["b"])) = length [10; 20; 30] - 1 ∧
  length (x_val (Partition [30; 10] ["c"; "a"] [20] ["b"])) = 1.
Proof.
  assert (train_val_split [2; 0; 1] 1 [10; 20; 30] ["a"; "b"; "c"]
          = inr (Partition [30; 10] ["c"; "a"] [20] ["b"])) as Hs
    by (vm_compute; reflexivity).
  split; [exact Hs|]. split; [reflexivity|]. split; [simpl; lia|].
  destruct (train_val_split_sizes [2; 0; 1] 1 [10; 20; 30] ["a"; "b"; "c"] _ Hs)
    as (Hsizes & _); [reflexivity|].
  destruct Hsizes as (Htrain & Hval & _); [simpl; lia|].
  split; [exact Htrain|exact Hval].
Defined.

Lemma data_entries_are_rows_witness :
  dense_vocab (tk_word_index sample_tokenizer) ∧ 0 < tk_num_words sample_tokenizer ∧
  Forall (Forall (λ i,
      i < num_words (tk_num_words sample_tokenizer) (tk_word_index sample_tokenizer) ∧
      is_Some ((embedding_matrix 0%Z (tk_num_words sample_tokenizer) 2
                  (tk_word_index sample_tokenizer) sample_embeddings_index).1 !! i)))
    (data split sample_tokenizer sample_texts).
Proof.
  assert (dense_vocab (tk_word_index sample_tokenizer)) as Hwi by sample_dense.
  assert (0 < tk_num_words sample_tokenizer) as HN by (vm_compute; lia).
  split; [exact Hwi|]. split; [exact HN|].
  apply (data_entries_are_rows 0%Z split sample_tokenizer sample_texts 2
           sample_embeddings_index Hwi HN).
Defined.
